(** * goulash/lex: a shallow embedding of the scanner and the lookahead reader

    The development follows [lexer.go] and [reader.go].  Go values are
    modelled as follows:

    - [int] is a 64-bit two's complement integer: a [Z] together with the
      wrap-around [Int.wrap] applied after every addition and subtraction;
    - [string] is an immutable sequence of bytes: [list byte];
    - [rune] is a [Z] (the sentinel [EOF] is [-1]);
    - a run-time panic, a receive that blocks for ever and a loop that does
      not finish within the given number of iterations are outcomes of their
      own ([Panic], [Block], [Fuel]);
    - the unbuffered channel [tokens] is the queue of the tokens sent and not
      yet received, with its [closed] flag: the scanner side only appends, the
      consumer side only removes, and the two sides share no other field. *)

From Stdlib Require Import ZArith List Bool Lia Sorted.
From Stdlib Require Import Strings.Byte Strings.String.
Import ListNotations.
Open Scope Z_scope.

(** ** Go's [int] *)

Module Int.

Definition min : Z := - 2 ^ 63.
Definition max : Z := 2 ^ 63 - 1.

(** Two's complement wrap-around of an exact result. *)
Definition wrap (z : Z) : Z := (z + 2 ^ 63) mod 2 ^ 64 - 2 ^ 63.

Definition add (a b : Z) : Z := wrap (a + b).
Definition sub (a b : Z) : Z := wrap (a - b).

(** The values an [int] variable can hold. *)
Definition ok (z : Z) : Prop := min <= z <= max.

End Int.

(** ** Go's [string] *)

Definition gostring := list byte.

(** A string literal, for examples. *)
Definition str (s : string) : gostring := list_byte_of_string s.

Definition b2z (b : byte) : Z := Z.of_N (Byte.to_N b).

Definition z2b (z : Z) : byte :=
  match Byte.of_N (Z.to_N (z mod 256)) with
  | Some b => b
  | None => x00
  end.

Definition len (s : gostring) : Z := Z.of_nat (List.length s).

(** [s[lo:hi]]; [None] is the run-time panic "slice bounds out of range". *)
Definition slice (s : gostring) (lo hi : Z) : option gostring :=
  if (0 <=? lo) && (lo <=? hi) && (hi <=? len s)
  then Some (firstn (Z.to_nat (hi - lo)) (skipn (Z.to_nat lo) s))
  else None.

(** [s[lo:]] *)
Definition slice_from (s : gostring) (lo : Z) : option gostring :=
  slice s lo (len s).

(** [s[:hi]] *)
Definition slice_to (s : gostring) (hi : Z) : option gostring :=
  slice s 0 hi.

(** ** Package [unicode/utf8] (the part the scanner calls) *)

Module utf8.

Definition RuneError : Z := 0xFFFD.
Definition RuneSelf : Z := 0x80.
Definition MaxRune : Z := 0x10FFFF.
Definition surrogateMin : Z := 0xD800.
Definition surrogateMax : Z := 0xDFFF.

Definition maskx : Z := 0x3F.
Definition mask2 : Z := 0x1F.
Definition mask3 : Z := 0x0F.
Definition mask4 : Z := 0x07.
Definition locb : Z := 0x80.
Definition hicb : Z := 0xBF.

Definition xx : Z := 0xF1.
Definition as_ : Z := 0xF0.
Definition s1 : Z := 0x02.
Definition s2 : Z := 0x13.
Definition s3 : Z := 0x03.
Definition s4 : Z := 0x23.
Definition s5 : Z := 0x34.
Definition s6 : Z := 0x04.
Definition s7 : Z := 0x44.

(** The table [first], indexed by the first byte of a sequence. *)
Definition first (b : Z) : Z :=
  if b <? 0x80 then as_
  else if b <? 0xC2 then xx
  else if b <? 0xE0 then s1
  else if b =? 0xE0 then s2
  else if b <? 0xED then s3
  else if b =? 0xED then s4
  else if b <? 0xF0 then s3
  else if b =? 0xF0 then s5
  else if b <? 0xF4 then s6
  else if b =? 0xF4 then s7
  else xx.

(** The table [acceptRanges]: bounds of the second byte. *)
Definition acceptRanges (i : Z) : Z * Z :=
  match i with
  | 0 => (locb, hicb)
  | 1 => (0xA0, hicb)
  | 2 => (locb, 0x9F)
  | 3 => (0x90, hicb)
  | 4 => (locb, 0x8F)
  | _ => (0, 0)
  end.

(** [DecodeRuneInString]: the first rune of [s] and its width in bytes;
    [(RuneError, 0)] on the empty string, [(RuneError, 1)] on an invalid
    encoding. *)
Definition DecodeRuneInString (s : gostring) : Z * Z :=
  match s with
  | [] => (RuneError, 0)
  | b0 :: t0 =>
    let c0 := b2z b0 in
    let x := first c0 in
    if as_ <=? x then
      let mask := if Z.testbit x 0 then -1 else 0 in
      (Z.lor (Z.land c0 (Z.lnot mask)) (Z.land RuneError mask), 1)
    else
      let sz := Z.land x 7 in
      let '(lo, hi) := acceptRanges (Z.shiftr x 4) in
      if len s <? sz then (RuneError, 1) else
      match t0 with
      | [] => (RuneError, 1)
      | b1 :: t1 =>
        let c1 := b2z b1 in
        if (c1 <? lo) || (hi <? c1) then (RuneError, 1) else
        if sz <=? 2 then
          (Z.lor (Z.shiftl (Z.land c0 mask2) 6) (Z.land c1 maskx), 2)
        else
        match t1 with
        | [] => (RuneError, 1)
        | b2 :: t2 =>
          let c2 := b2z b2 in
          if (c2 <? locb) || (hicb <? c2) then (RuneError, 1) else
          if sz <=? 3 then
            (Z.lor (Z.lor (Z.shiftl (Z.land c0 mask3) 12)
                          (Z.shiftl (Z.land c1 maskx) 6))
                   (Z.land c2 maskx), 3)
          else
          match t2 with
          | [] => (RuneError, 1)
          | b3 :: _ =>
            let c3 := b2z b3 in
            if (c3 <? locb) || (hicb <? c3) then (RuneError, 1) else
            (Z.lor (Z.lor (Z.lor (Z.shiftl (Z.land c0 mask4) 18)
                                 (Z.shiftl (Z.land c1 maskx) 12))
                          (Z.shiftl (Z.land c2 maskx) 6))
                   (Z.land c3 maskx), 4)
          end
        end
      end
  end.

Definition ValidRune (r : Z) : bool :=
  ((0 <=? r) && (r <? surrogateMin)) || ((surrogateMax <? r) && (r <=? MaxRune)).

(** [string(r)]: the UTF-8 encoding of [r]; an invalid rune encodes as
    [RuneError]. *)
Definition encode3 (r : Z) : gostring :=
  [ z2b (Z.lor 0xE0 (Z.shiftr r 12));
    z2b (Z.lor 0x80 (Z.land (Z.shiftr r 6) maskx));
    z2b (Z.lor 0x80 (Z.land r maskx)) ].

Definition EncodeRune (r : Z) : gostring :=
  if (0 <=? r) && (r <? 0x80) then [ z2b r ]
  else if (0 <=? r) && (r <=? 0x7FF) then
    [ z2b (Z.lor 0xC0 (Z.shiftr r 6)); z2b (Z.lor 0x80 (Z.land r maskx)) ]
  else if negb (ValidRune r) then encode3 RuneError
  else if r <=? 0xFFFF then encode3 r
  else
    [ z2b (Z.lor 0xF0 (Z.shiftr r 18));
      z2b (Z.lor 0x80 (Z.land (Z.shiftr r 12) maskx));
      z2b (Z.lor 0x80 (Z.land (Z.shiftr r 6) maskx));
      z2b (Z.lor 0x80 (Z.land r maskx)) ].

(** [RuneCountInString]: one rune per decoding step. *)
Fixpoint RuneCount_loop (fuel : nat) (s : gostring) (n : Z) : Z :=
  match fuel with
  | O => n
  | S f =>
    match s with
    | [] => n
    | _ => RuneCount_loop f (skipn (Z.to_nat (snd (DecodeRuneInString s))) s) (n + 1)
    end
  end.

Definition RuneCountInString (s : gostring) : Z :=
  RuneCount_loop (List.length s) s 0.

End utf8.

(** ** Package [strings] (the part the scanner calls) *)

Module strings.

Fixpoint HasPrefix (s prefix : gostring) : bool :=
  match prefix with
  | [] => true
  | p :: prefix' =>
    match s with
    | [] => false
    | c :: s' => Byte.eqb c p && HasPrefix s' prefix'
    end
  end.

(** Index of the first byte equal to [c], counted from [i]; [-1] if none. *)
Fixpoint IndexByte_from (i : Z) (s : gostring) (c : byte) : Z :=
  match s with
  | [] => -1
  | b :: s' => if Byte.eqb b c then i else IndexByte_from (i + 1) s' c
  end.

Definition IndexByte (s : gostring) (c : byte) : Z := IndexByte_from 0 s c.

(** Index of the first occurrence of [substr], counted from [i]. *)
Fixpoint Index_from (i : Z) (s substr : gostring) : Z :=
  match s with
  | [] => if HasPrefix [] substr then i else -1
  | _ :: s' => if HasPrefix s substr then i else Index_from (i + 1) s' substr
  end.

Definition Index (s substr : gostring) : Z := Index_from 0 s substr.

(** [for i, r := range s { if r == utf8.RuneError { return i } }] *)
Fixpoint IndexRuneError_loop (fuel : nat) (i : Z) (s : gostring) : Z :=
  match fuel with
  | O => -1
  | S f =>
    match s with
    | [] => -1
    | _ =>
      let '(r, w) := utf8.DecodeRuneInString s in
      if r =? utf8.RuneError then i
      else IndexRuneError_loop f (i + w) (skipn (Z.to_nat w) s)
    end
  end.

(** [IndexRune]: the index of the first instance of the code point [r] in
    [s], or [-1]; a rune that is not a valid code point is never found, and
    [RuneError] finds the first invalid byte sequence. *)
Definition IndexRune (s : gostring) (r : Z) : Z :=
  if (0 <=? r) && (r <? utf8.RuneSelf) then IndexByte s (z2b r)
  else if r =? utf8.RuneError then IndexRuneError_loop (List.length s) 0 s
  else if negb (utf8.ValidRune r) then -1
  else Index s (utf8.EncodeRune r).

Fixpoint CountByte (s : gostring) (c : byte) : Z :=
  match s with
  | [] => 0
  | b :: s' => (if Byte.eqb b c then 1 else 0) + CountByte s' c
  end.

(** Non-overlapping occurrences of a separator of two bytes or more. *)
Fixpoint Count_loop (fuel : nat) (s substr : gostring) (n : Z) : Z :=
  match fuel with
  | O => n
  | S f =>
    let i := Index s substr in
    if i <? 0 then n
    else Count_loop f (skipn (Z.to_nat (i + len substr)) s) substr (n + 1)
  end.

Definition Count (s substr : gostring) : Z :=
  match substr with
  | [] => utf8.RuneCountInString s + 1
  | [c] => CountByte s c
  | _ => Count_loop (List.length s) s substr 0
  end.

(** Index of the last occurrence of [substr]; [-1] if none. *)
Fixpoint LastIndex_scan (i : Z) (s substr : gostring) (last : Z) : Z :=
  match s with
  | [] => if HasPrefix [] substr then i else last
  | _ :: s' =>
    LastIndex_scan (i + 1) s' substr (if HasPrefix s substr then i else last)
  end.

Definition LastIndex (s substr : gostring) : Z := LastIndex_scan 0 s substr (-1).

End strings.

(** ** Tokens *)

Definition EOF : Z := -1.

(** [Type] is an [int]; the two reserved values. *)
Definition TypeError : Z := 0.
Definition TypeEOF : Z := 1.

Module Token.

Record t := mk { Type_ : Z; Pos : Z; Value : gostring }.

(** The zero value, which a receive on a closed channel yields. *)
Definition zero : t := mk 0 0 [].

End Token.

(** ** Outcomes of a call *)

Inductive outcome (S A : Type) : Type :=
| Ret (a : A) (s : S)     (* returns [a], leaving the state [s] *)
| Panic                   (* run-time panic *)
| Block                   (* blocks on the channel for ever *)
| Fuel.                   (* the loop is still running when the fuel is spent *)

Arguments Ret {S A} a s.
Arguments Panic {S A}.
Arguments Block {S A}.
Arguments Fuel {S A}.

Definition M (S A : Type) : Type := S -> outcome S A.

Definition ret {S A} (a : A) : M S A := fun s => Ret a s.

Definition bind {S A B} (m : M S A) (k : A -> M S B) : M S B :=
  fun s =>
    match m s with
    | Ret a s' => k a s'
    | Panic => Panic
    | Block => Block
    | Fuel => Fuel
    end.

Notation "x <- m ;; k" := (bind m (fun x => k))
  (at level 61, m at next level, right associativity).
Notation "m ;;; k" := (bind m (fun _ => k))
  (at level 61, right associativity).

(** ** The scanner ([lexer.go]) *)

Module Lexer.

Record t := mk {
  name : gostring;
  input : gostring;
  width : Z;
  base : Z;
  pos : Z;
  lastPos : Z;
  tokens : list Token.t;   (* sent on the channel, not yet received *)
  closed : bool            (* the channel has been closed *)
}.

Definition set_width (w : Z) (l : t) : t :=
  mk (name l) (input l) w (base l) (pos l) (lastPos l) (tokens l) (closed l).
Definition set_base (b : Z) (l : t) : t :=
  mk (name l) (input l) (width l) b (pos l) (lastPos l) (tokens l) (closed l).
Definition set_pos (p : Z) (l : t) : t :=
  mk (name l) (input l) (width l) (base l) p (lastPos l) (tokens l) (closed l).
Definition set_lastPos (p : Z) (l : t) : t :=
  mk (name l) (input l) (width l) (base l) (pos l) p (tokens l) (closed l).
Definition set_tokens (q : list Token.t) (l : t) : t :=
  mk (name l) (input l) (width l) (base l) (pos l) (lastPos l) q (closed l).
Definition set_closed (c : bool) (l : t) : t :=
  mk (name l) (input l) (width l) (base l) (pos l) (lastPos l) (tokens l) c.

Definition New (name input : gostring) : t :=
  mk name input 0 0 0 0 [] false.

(** [l.tokens <- tok]: a send on a closed channel panics.  Otherwise the
    token joins the tokens sent: the wait of the sender for the receiver is
    not part of this model, which follows the scanner up to each send and the
    consumer from each receive. *)
Definition send (tok : Token.t) : M t unit := fun l =>
  if closed l then Panic
  else Ret tt (set_tokens (tokens l ++ [tok]) l).

(** [<-l.tokens]: the oldest token sent; the zero token once the channel
    is closed and empty; otherwise the receive waits for the scanner. *)
Definition recv : M t Token.t := fun l =>
  match tokens l with
  | tok :: q => Ret tok (set_tokens q l)
  | [] => if closed l then Ret Token.zero l else Block
  end.

Definition NextToken : M t Token.t :=
  tok <- recv ;;
  fun l => Ret tok (set_lastPos (Token.Pos tok) l).

(** [for range l.tokens {}]: receives until the channel is closed. *)
Definition Drain : M t unit := fun l =>
  if closed l then Ret tt (set_tokens [] l) else Block.

Definition LineNumber (l : t) : option Z :=
  match slice_to (input l) (lastPos l) with
  | Some code => Some (Int.add 1 (strings.Count code [x0a]))
  | None => None
  end.

Definition ColumnNumber (l : t) : option Z :=
  match slice_to (input l) (lastPos l) with
  | Some code =>
    let i := strings.LastIndex code [x0a] in
    if 0 <=? i then Some (Int.sub (lastPos l) i)
    else Some (Int.add 1 (len code))
  | None => None
  end.

Definition Name (l : t) : gostring := name l.

Definition Value (l : t) : option gostring := slice (input l) (base l) (pos l).

Definition Len (l : t) : Z := Int.sub (base l) (pos l).

Definition Inc (n : Z) : M t unit := fun l =>
  Ret tt (set_pos (Int.add (pos l) n) l).

Definition Dec (n : Z) : M t unit := fun l =>
  Ret tt (set_pos (Int.sub (pos l) n) l).

Definition Input (n : Z) (l : t) : option gostring :=
  slice_from (input l) (Int.add (pos l) n).

Definition Next : M t Z := fun l =>
  if len (input l) <=? pos l then Ret EOF (set_width 0 l)
  else
    match slice_from (input l) (pos l) with
    | None => Panic
    | Some rest =>
      let '(r, w) := utf8.DecodeRuneInString rest in
      let l1 := set_width w l in
      Ret r (set_pos (Int.add (pos l1) (width l1)) l1)
    end.

Definition Backup : M t unit := fun l =>
  Ret tt (set_pos (Int.sub (pos l) (width l)) l).

Definition Peek : M t Z :=
  r <- Next ;;
  Backup ;;;
  ret r.

Definition Emit (ty : Z) : M t unit := fun l =>
  match slice (input l) (base l) (pos l) with
  | None => Panic
  | Some v =>
    (send (Token.mk ty (base l) v) ;;;
     fun l' => Ret tt (set_base (pos l') l')) l
  end.

Definition Ignore : M t unit := fun l =>
  Ret tt (set_base (pos l) l).

Definition HasPrefix (s : gostring) (l : t) : option bool :=
  match slice_from (input l) (pos l) with
  | Some rest => Some (strings.HasPrefix rest s)
  | None => None
  end.

Definition HasPrefixAfter (after : Z) (s : gostring) (l : t) : option bool :=
  match slice_from (input l) (Int.add (pos l) after) with
  | Some rest => Some (strings.HasPrefix rest s)
  | None => None
  end.

Definition Consume (s : gostring) : M t bool := fun l =>
  match HasPrefix s l with
  | None => Panic
  | Some ok =>
    if ok then Ret ok (set_pos (Int.add (pos l) (len s)) l)
    else Ret ok l
  end.

Definition Accept (valid : gostring) : M t bool :=
  r <- Next ;;
  if 0 <=? strings.IndexRune valid r then ret true
  else Backup ;;; ret false.

Fixpoint AcceptRun_loop (fuel : nat) (valid : gostring) (n : Z) : M t Z :=
  match fuel with
  | O => fun _ => Fuel
  | S f =>
    r <- Next ;;
    if 0 <=? strings.IndexRune valid r
    then fun l => AcceptRun_loop f valid (Int.add n (width l)) l
    else Backup ;;; ret n
  end.

Definition AcceptRun (fuel : nat) (valid : gostring) : M t Z :=
  AcceptRun_loop fuel valid 0.

Definition AcceptFunc (f : Z -> bool) : M t bool :=
  r <- Next ;;
  if f r then ret true
  else Backup ;;; ret false.

Fixpoint AcceptFuncRun_loop (fuel : nat) (f : Z -> bool) (n : Z) : M t Z :=
  match fuel with
  | O => fun _ => Fuel
  | S k =>
    r <- Next ;;
    if f r
    then fun l => AcceptFuncRun_loop k f (Int.add n (width l)) l
    else Backup ;;; ret n
  end.

Definition AcceptFuncRun (fuel : nat) (f : Z -> bool) : M t Z :=
  AcceptFuncRun_loop fuel f 0.

Definition AcceptBut (invalid : gostring) : M t bool :=
  r <- Next ;;
  if strings.IndexRune invalid r <? 0 then ret true
  else Backup ;;; ret false.

Fixpoint AcceptButRun_loop (fuel : nat) (invalid : gostring) (n : Z) : M t Z :=
  match fuel with
  | O => fun _ => Fuel
  | S f =>
    r <- Next ;;
    if strings.IndexRune invalid r <? 0
    then fun l => AcceptButRun_loop f invalid (Int.add n (width l)) l
    else Backup ;;; ret n
  end.

Definition AcceptButRun (fuel : nat) (invalid : gostring) : M t Z :=
  AcceptButRun_loop fuel invalid 0.

(** [Errorf]: [msg] is the text [fmt.Sprintf] has produced; the state
    function that calls it returns nil. *)
Definition Errorf (msg : gostring) : M t unit := fun l =>
  send (Token.mk TypeError (base l) msg) l.

(** A state function takes the scanner and returns the next state
    function; [None] is nil. *)
#[local] Unset Elimination Schemes.
Inductive StateFn : Type :=
| State (f : t -> outcome t (option StateFn)).
#[local] Set Elimination Schemes.

Definition apply (sf : StateFn) : M t (option StateFn) :=
  match sf with State f => f end.

Fixpoint Run (fuel : nat) (fn : option StateFn) : M t unit :=
  match fn with
  | None => fun l => if closed l then Panic else Ret tt (set_closed true l)
  | Some sf =>
    match fuel with
    | O => fun _ => Fuel
    | S k => next <- apply sf ;; Run k next
    end
  end.

(** [Lex]: the scanner runs to completion before the consumer looks at the
    queue; the consumer cannot tell, it reads no field the scanner writes. *)
Definition Lex (fuel : nat) (name input : gostring) (sf : StateFn) : outcome t unit :=
  Run fuel (Some sf) (New name input).

End Lexer.

(** ** The lookahead reader ([reader.go]) *)

Module Reader.

Record t := mk { lex : Lexer.t; buf : option Token.t }.

Definition NewReader (l : Lexer.t) : t := mk l None.

(** A call on [r.lex]. *)
Definition on_lex {A} (m : M Lexer.t A) : M t A := fun r =>
  match m (lex r) with
  | Ret a l => Ret a (mk l (buf r))
  | Panic => Panic
  | Block => Block
  | Fuel => Fuel
  end.

Definition Peek : M t Token.t := fun r =>
  match buf r with
  | None =>
    (tok <- on_lex Lexer.NextToken ;;
     fun r' => Ret tok (mk (lex r') (Some tok))) r
  | Some tok => Ret tok r
  end.

Definition Next : M t Token.t := fun r =>
  match buf r with
  | Some tok => Ret tok (mk (lex r) None)
  | None => on_lex Lexer.NextToken r
  end.

Definition Backup (tok : Token.t) : M t unit := fun r =>
  match buf r with
  | Some _ => Panic
  | None => Ret tt (mk (lex r) (Some tok))
  end.

(** The loop of [Expect]: [tokens] is the slice built so far. *)
Fixpoint Expect_loop (types : list Z) (tokens : list Token.t)
  : M t (list Token.t * bool) :=
  match types with
  | [] => ret (tokens, true)
  | ty :: types' =>
    arg <- Next ;;
    let tokens' := tokens ++ [arg] in
    if negb (Token.Type_ arg =? ty) then ret (tokens', false)
    else Expect_loop types' tokens'
  end.

Definition Expect (types : list Z) : M t (list Token.t * bool) :=
  Expect_loop types [].

Definition PosInfo (r : t) : gostring * option Z * option Z :=
  (Lexer.Name (lex r), Lexer.LineNumber (lex r), Lexer.ColumnNumber (lex r)).

(** The tokens the reader will hand out, in order, as far as they are
    already there: the buffered one, then the queue of the channel. *)
Definition pending (r : t) : list Token.t :=
  match buf r with
  | Some tok => tok :: Lexer.tokens (lex r)
  | None => Lexer.tokens (lex r)
  end.

(** The [i]-th token the reader will hand out: past the queue it is the
    zero token if the channel is closed, and not there yet otherwise. *)
Definition upcoming (r : t) (i : nat) : option Token.t :=
  match nth_error (pending r) i with
  | Some tok => Some tok
  | None => if Lexer.closed (lex r) then Some Token.zero else None
  end.

End Reader.

(** ** Sequences of scanner calls, as a state function performs them *)

Inductive op : Type :=
| ONext
| OBackup
| OPeek
| OEmit (ty : Z)
| OIgnore
| OInc (n : Z)
| ODec (n : Z)
| OConsume (s : gostring)
| OAccept (valid : gostring)
| OAcceptRun (valid : gostring)
| OAcceptFunc (f : Z -> bool)
| OAcceptFuncRun (f : Z -> bool)
| OAcceptBut (invalid : gostring)
| OAcceptButRun (invalid : gostring)
| OErrorf (msg : gostring).

Definition void {A} (m : M Lexer.t A) : M Lexer.t unit := m ;;; ret tt.

(** One call; a loop gets [fuel] iterations. *)
Definition exec (fuel : nat) (o : op) : M Lexer.t unit :=
  match o with
  | ONext => void Lexer.Next
  | OBackup => Lexer.Backup
  | OPeek => void Lexer.Peek
  | OEmit ty => Lexer.Emit ty
  | OIgnore => Lexer.Ignore
  | OInc n => Lexer.Inc n
  | ODec n => Lexer.Dec n
  | OConsume s => void (Lexer.Consume s)
  | OAccept valid => void (Lexer.Accept valid)
  | OAcceptRun valid => void (Lexer.AcceptRun fuel valid)
  | OAcceptFunc f => void (Lexer.AcceptFunc f)
  | OAcceptFuncRun f => void (Lexer.AcceptFuncRun fuel f)
  | OAcceptBut invalid => void (Lexer.AcceptBut invalid)
  | OAcceptButRun invalid => void (Lexer.AcceptButRun fuel invalid)
  | OErrorf msg => Lexer.Errorf msg
  end.

(** What a call does to the pending text, recorded beside the run: the token
    it sends, or the span [input[base:pos]] it drops. *)
Inductive event : Type :=
| Emitted (tok : Token.t)
| Ignored (lo hi : Z).

Definition observe (o : op) (l : Lexer.t) : list event :=
  match o with
  | OEmit ty =>
    match Lexer.Value l with
    | Some v => [Emitted (Token.mk ty (Lexer.base l) v)]
    | None => []
    end
  | OIgnore => [Ignored (Lexer.base l) (Lexer.pos l)]
  | OErrorf msg => [Emitted (Token.mk TypeError (Lexer.base l) msg)]
  | _ => []
  end.

Fixpoint run (fuel : nat) (ops : list op) (log : list event)
  : M Lexer.t (list event) :=
  match ops with
  | [] => ret log
  | o :: ops' =>
    fun l => (exec fuel o ;;; run fuel ops' (log ++ observe o l)) l
  end.

Fixpoint emitted (log : list event) : list Token.t :=
  match log with
  | [] => []
  | Emitted tok :: log' => tok :: emitted log'
  | Ignored _ _ :: log' => emitted log'
  end.

Fixpoint ignored (log : list event) : list (Z * Z) :=
  match log with
  | [] => []
  | Emitted _ :: log' => ignored log'
  | Ignored lo hi :: log' => (lo, hi) :: ignored log'
  end.

(** [backup] at most once per preceding [next], read to the letter: [next]
    arms it, [backup] uses it up. *)
Fixpoint once_per_next (armed : bool) (ops : list op) : bool :=
  match ops with
  | [] => true
  | ONext :: ops' => once_per_next true ops'
  | OBackup :: ops' => armed && once_per_next false ops'
  | OEmit _ :: ops' | OIgnore :: ops' => once_per_next armed ops'
  | _ => false
  end.

(** The stricter discipline: [backup] undoes the [next] just before it, so
    [emit] and [ignore] use the [next] up as well. *)
Fixpoint consistent (armed : bool) (ops : list op) : bool :=
  match ops with
  | [] => true
  | ONext :: ops' => consistent true ops'
  | OBackup :: ops' => armed && consistent false ops'
  | OEmit _ :: ops' | OIgnore :: ops' => consistent false ops'
  | _ => false
  end.

(** The text [s], whose first byte has offset [i], without the bytes whose
    offset lies in one of the [spans]. *)
Definition in_span (i : Z) (sp : Z * Z) : bool :=
  (fst sp <=? i) && (i <? snd sp).

Fixpoint remove_from (i : Z) (s : gostring) (spans : list (Z * Z)) : gostring :=
  match s with
  | [] => []
  | b :: s' =>
    if existsb (in_span i) spans then remove_from (i + 1) s' spans
    else b :: remove_from (i + 1) s' spans
  end.

Definition remove_spans (s : gostring) (spans : list (Z * Z)) : gostring :=
  remove_from 0 s spans.

(** The events of a log lie end to end from offset [a] to offset [b], and
    every token sent carries its own offset and the text of its span. *)
Inductive tiles (inp : gostring) : Z -> Z -> list event -> Prop :=
| tiles_nil a : tiles inp a a []
| tiles_emit a b c ty v log :
    slice inp a b = Some v ->
    tiles inp b c log ->
    tiles inp a c (Emitted (Token.mk ty a v) :: log)
| tiles_ignore a b c log :
    a <= b ->
    tiles inp b c log ->
    tiles inp a c (Ignored a b :: log).

(** The fields of a scanner hold Go values: every [int] is in range, and so
    is the length of the input. *)
Definition wf (l : Lexer.t) : Prop :=
  Int.ok (Lexer.width l) /\ Int.ok (Lexer.base l) /\ Int.ok (Lexer.pos l) /\
  Int.ok (Lexer.lastPos l) /\ len (Lexer.input l) <= Int.max.

(** The text of the examples: ["ab\ncd"]. *)
Definition ab_nl_cd : gostring := str "ab" ++ [x0a] ++ str "cd".

(** A call that leaves the pending text and the channel alone. *)
Definition frames {A} (m : M Lexer.t A) : Prop :=
  forall l a l',
    m l = Ret a l' ->
    Lexer.base l' = Lexer.base l /\ Lexer.tokens l' = Lexer.tokens l /\
    Lexer.input l' = Lexer.input l /\ Lexer.closed l' = Lexer.closed l.

(** The tokens on the channel are in the order of their positions, and none
    starts after the pending text. *)
Definition ordered (l : Lexer.t) : Prop :=
  StronglySorted Z.le (map Token.Pos (Lexer.tokens l)) /\
  Forall (fun p => p <= Lexer.base l) (map Token.Pos (Lexer.tokens l)).

(** The property of the emitted text for a whole run, read to the letter:
    the values of the tokens sent, put end to end, are the input without the
    ignored spans. *)
Definition whole_input_covered (input : gostring) (ops : list op) : Prop :=
  forall fuel name log l,
    run fuel ops [] (Lexer.New name input) = Ret log l ->
    List.concat (map Token.Value (Lexer.tokens l)) = remove_spans input (ignored log).

(** The state of a scanner that is used with discipline: the pending text
    lies within the input, the channel is open, and the log tiles the input
    up to the start of the pending text. *)
Definition disciplined (l : Lexer.t) (log : list event) : Prop :=
  wf l /\ Lexer.closed l = false /\
  (0 <= Lexer.base l <= Lexer.pos l) /\ Lexer.pos l <= len (Lexer.input l) /\
  tiles (Lexer.input l) 0 (Lexer.base l) log.

(** While a [Backup] is allowed, undoing the last [Next] keeps the cursor
    within the pending text. *)
Definition undoable (armed : bool) (l : Lexer.t) : Prop :=
  armed = true -> 0 <= Lexer.width l /\ Lexer.base l <= Lexer.pos l - Lexer.width l.

(** ** The character classes *)

(** [Space = " \t"], [Endline = "\r\n"] and the three quote characters. *)
Definition Space : gostring := [x20; x09].
Definition Endline : gostring := [x0d; x0a].
Definition Quote : gostring := [x22; x27; x60].

Definition IsSpace (r : Z) : bool := (r =? 32) || (r =? 9).

Definition IsEndline (r : Z) : bool := (r =? 13) || (r =? 10).

Definition IsQuote (r : Z) : bool := (r =? 34) || (r =? 39) || (r =? 96).

(** The byte of the input at offset [i], if there is one. *)
Definition byte_at (s : gostring) (i : Z) : option byte :=
  if i <? 0 then None else nth_error s (Z.to_nat i).

(** The rune at offset [a] of the input of [l], with the offset after it, as
    [Next] reads them there. *)
Definition rune_at (l : Lexer.t) (a : Z) : option (Z * Z) :=
  match Lexer.Next (Lexer.set_pos a l) with
  | Ret r l1 => Some (r, Lexer.pos l1)
  | _ => None
  end.

(** The input of [l] from offset [a] up to offset [b] is a sequence of runes
    that all satisfy [f]. *)
Inductive run_of (f : Z -> bool) (l : Lexer.t) : Z -> Z -> Prop :=
| run_of_nil a : run_of f l a a
| run_of_cons a r a' b :
    rune_at l a = Some (r, a') -> r <> EOF -> f r = true ->
    run_of f l a' b -> run_of f l a b.

(** A token holds the text that the input has at its position. *)
Definition holds_its_text (input : gostring) (tok : Token.t) : Prop :=
  slice input (Token.Pos tok) (Token.Pos tok + len (Token.Value tok))
    = Some (Token.Value tok).

(** * Properties *)

(** ** Integers, strings and runes *)

Lemma wrap_small z : Int.ok z -> Int.wrap z = z.
Proof.
  unfold Int.ok, Int.min, Int.max, Int.wrap. intros H.
  rewrite Z.mod_small; lia.
Qed.

Lemma add_sub_cancel p w : Int.ok p -> Int.sub (Int.add p w) w = p.
Proof.
  intros H. unfold Int.sub, Int.add, Int.wrap.
  replace ((p + w + 2 ^ 63) mod 2 ^ 64 - 2 ^ 63 - w + 2 ^ 63)
    with ((p + w + 2 ^ 63) mod 2 ^ 64 - w) by lia.
  rewrite Zminus_mod_idemp_l.
  replace (p + w + 2 ^ 63 - w) with (p + 2 ^ 63) by lia.
  apply (wrap_small p H).
Qed.

Lemma len_nonneg s : 0 <= len s.
Proof. unfold len. lia. Qed.

Lemma len_app s1 s2 : len (s1 ++ s2) = len s1 + len s2.
Proof. unfold len. rewrite length_app. lia. Qed.

Lemma len_cons b s : len (b :: s) = 1 + len s.
Proof. unfold len. simpl List.length. lia. Qed.

Lemma slice_Some s lo hi v :
  slice s lo hi = Some v ->
  0 <= lo <= hi /\ hi <= len s /\ len v = hi - lo /\
  v = firstn (Z.to_nat (hi - lo)) (skipn (Z.to_nat lo) s).
Proof.
  unfold slice. intros H.
  destruct (0 <=? lo) eqn:E1; [|discriminate].
  destruct (lo <=? hi) eqn:E2; [|discriminate].
  destruct (hi <=? len s) eqn:E3; [|discriminate].
  simpl in H. injection H as <-.
  apply Z.leb_le in E1, E2, E3. unfold len in *.
  repeat split; try lia.
  rewrite length_firstn, length_skipn. lia.
Qed.

Lemma slice_ok s lo hi :
  0 <= lo <= hi -> hi <= len s -> exists v, slice s lo hi = Some v.
Proof.
  intros [H1 H2] H3. unfold slice.
  apply Z.leb_le in H1, H2, H3. rewrite H1, H2, H3. simpl. eauto.
Qed.

Lemma slice_from_Some s lo rest :
  slice_from s lo = Some rest -> 0 <= lo <= len s /\ len rest = len s - lo.
Proof.
  unfold slice_from. intros H. apply slice_Some in H. lia.
Qed.

(** A rune decoded from a non-empty string is one to four bytes wide and
    lies within the string. *)
Lemma DecodeRune_width s r w :
  utf8.DecodeRuneInString s = (r, w) -> s <> [] -> 1 <= w <= 4 /\ w <= len s.
Proof.
  intros H Hne. destruct s as [|b0 t0]; [congruence|].
  unfold utf8.DecodeRuneInString in H.
  remember (utf8.first (b2z b0)) as x.
  remember (utf8.acceptRanges (Z.shiftr x 4)) as ar. destruct ar as [lo hi].
  repeat match type of H with
         | (_, _) = (_, _) => fail 1
         | context [match ?t with [] => _ | _ :: _ => _ end] => destruct t
         | context [if ?c then _ else _] => destruct c
         end;
    injection H as <- <-; rewrite ?len_cons;
    pose proof (len_nonneg []); try pose proof (len_nonneg t0);
    try pose proof (len_nonneg t); lia.
Qed.

Lemma DecodeRune_empty : utf8.DecodeRuneInString [] = (utf8.RuneError, 0).
Proof. reflexivity. Qed.

(** The end-of-input sentinel is not a code point: no set contains it. *)
Lemma IndexRune_EOF s : strings.IndexRune s EOF = -1.
Proof. reflexivity. Qed.

(** ** [Next], [Backup] and [Peek] *)

Lemma Next_at_end l :
  len (Lexer.input l) <= Lexer.pos l ->
  Lexer.Next l = Ret EOF (Lexer.set_width 0 l).
Proof.
  intros H. unfold Lexer.Next.
  apply Z.leb_le in H. rewrite H. reflexivity.
Qed.

Lemma Next_before_start l : Lexer.pos l < 0 -> Lexer.Next l = Panic.
Proof.
  intros H. unfold Lexer.Next.
  pose proof (len_nonneg (Lexer.input l)).
  destruct (len (Lexer.input l) <=? Lexer.pos l) eqn:E.
  - apply Z.leb_le in E. lia.
  - destruct (slice_from (Lexer.input l) (Lexer.pos l)) eqn:S; [|reflexivity].
    apply slice_from_Some in S. lia.
Qed.

Lemma Next_inside l :
  wf l -> 0 <= Lexer.pos l < len (Lexer.input l) ->
  exists r w,
    Lexer.Next l = Ret r (Lexer.set_pos (Lexer.pos l + w) (Lexer.set_width w l)) /\
    1 <= w <= 4 /\ Lexer.pos l + w <= len (Lexer.input l) /\ r <> EOF.
Proof.
  intros (_ & _ & Hp & _ & Hlen) Hin. unfold Lexer.Next.
  destruct (len (Lexer.input l) <=? Lexer.pos l) eqn:E.
  { apply Z.leb_le in E. lia. }
  destruct (slice_ok (Lexer.input l) (Lexer.pos l) (len (Lexer.input l)))
    as [rest Hrest]; try lia.
  unfold slice_from. rewrite Hrest.
  pose proof (slice_Some _ _ _ _ Hrest) as (_ & _ & Hl & _).
  destruct (utf8.DecodeRuneInString rest) as [r w] eqn:D.
  assert (Hne : rest <> []).
  { intros ->. change (len []) with 0 in Hl. lia. }
  pose proof (DecodeRune_width _ _ _ D Hne) as [Hw Hw'].
  exists r, w. simpl. unfold Int.add.
  rewrite wrap_small by (unfold Int.ok, Int.min, Int.max in *; lia).
  repeat split; try lia.
  (* a decoded rune is never negative *)
  clear - D Hne. destruct rest as [|b0 t0]; [congruence|].
  unfold utf8.DecodeRuneInString in D.
  assert (Hb : forall b, 0 <= b2z b) by (intros b; unfold b2z; lia).
  assert (Hor : forall a b, 0 <= a -> 0 <= b -> 0 <= Z.lor a b)
    by (intros; apply Z.lor_nonneg; auto).
  assert (Hshl : forall a n, 0 <= a -> 0 <= Z.shiftl a n)
    by (intros; apply Z.shiftl_nonneg; auto).
  remember (utf8.first (b2z b0)) as x.
  remember (utf8.acceptRanges (Z.shiftr x 4)) as ar. destruct ar as [lo hi].
  assert (Hr : 0 <= r).
  { destruct (Z.testbit x 0);
    repeat match type of D with
           | (_, _) = (_, _) => fail 1
           | context [match ?t with [] => _ | _ :: _ => _ end] => destruct t
           | context [if ?c then _ else _] => destruct c
           end;
      apply (f_equal fst) in D; cbv beta iota zeta delta [fst] in D; subst r;
      unfold utf8.RuneError, utf8.maskx, utf8.mask2, utf8.mask3, utf8.mask4;
      repeat first
        [ apply Hor | apply Hshl
        | apply Z.land_nonneg; first [ left; first [ apply Hb | lia ] | right; lia ] ];
      lia. }
  unfold EOF. lia.
Qed.

Lemma set_pos_set_pos p q l : Lexer.set_pos p (Lexer.set_pos q l) = Lexer.set_pos p l.
Proof. reflexivity. Qed.

Lemma set_pos_same l : Lexer.set_pos (Lexer.pos l) l = l.
Proof. destruct l; reflexivity. Qed.

(** C10: at or past the end of the input [AcceptBut] returns true for every
    excluded set, and the cursor stays where it is; only the recorded width
    is reset to zero. *)
Theorem AcceptBut_true_at_end_of_input (invalid : gostring) (l : Lexer.t) :
  len (Lexer.input l) <= Lexer.pos l ->
  exists l',
    Lexer.AcceptBut invalid l = Ret true l' /\
    Lexer.pos l' = Lexer.pos l /\
    l' = Lexer.set_width 0 l.
Proof.
  intros H. exists (Lexer.set_width 0 l).
  unfold Lexer.AcceptBut, bind. rewrite (Next_at_end l H).
  rewrite IndexRune_EOF. simpl. auto.
Qed.

Lemma AcceptBut_true_at_end_of_input_witness :
  let l := Lexer.set_pos 2 (Lexer.New (str "t") (str "ab")) in
  len (Lexer.input l) <= Lexer.pos l /\
  exists l',
    Lexer.AcceptBut (str "b") l = Ret true l' /\
    Lexer.pos l' = Lexer.pos l /\
    l' = Lexer.set_width 0 l.
Proof.
  intros l. split.
  - vm_compute. discriminate.
  - apply (AcceptBut_true_at_end_of_input (str "b") l). vm_compute. discriminate.
Defined.

(** C9, as stated, fails: [Dec] and [Inc] take the cursor, and [Ignore] the
    start of the pending text, to the ends of the range of [int].  After this
    run the cursor is after the start of the pending text, and [Len], whose
    subtraction overflows, is 1. *)
Lemma Len_positive_with_cursor_after_base :
  let l := Lexer.set_pos Int.max
             (Lexer.set_base Int.min (Lexer.New (str "t") (str "ab"))) in
  run 0 [ODec Int.max; ODec 1; OIgnore; OInc Int.max; OInc Int.max; OInc 1] []
      (Lexer.New (str "t") (str "ab")) = Ret [Ignored 0 Int.min] l /\
  wf l /\ Lexer.base l <= Lexer.pos l /\
  Lexer.Len l = 1 /\ ~ (Lexer.Len l <= 0).
Proof.
  intros l. split; [vm_compute; reflexivity|].
  split; [vm_compute; intuition discriminate|].
  split; [vm_compute; discriminate|].
  split; [vm_compute; reflexivity|].
  vm_compute. intros H. apply H. reflexivity.
Qed.

(** C9, amended: [Len] returns [base - pos] in the arithmetic of [int].
    With the cursor at or after the start of the pending text the result is
    [base - pos] itself, zero or negative, as long as that difference does
    not overflow, which is so whenever the start of the pending text is not
    negative; and whenever the pending text [Value] exists, the result is the
    negation of its length. *)
Theorem Len_is_negated_length (l : Lexer.t) :
  wf l ->
  Lexer.Len l = Int.wrap (Lexer.base l - Lexer.pos l) /\
  (Lexer.base l <= Lexer.pos l -> Int.min <= Lexer.base l - Lexer.pos l ->
   Lexer.Len l = Lexer.base l - Lexer.pos l /\ Lexer.Len l <= 0) /\
  (0 <= Lexer.base l <= Lexer.pos l ->
   Lexer.Len l = Lexer.base l - Lexer.pos l /\ Lexer.Len l <= 0) /\
  (forall v, Lexer.Value l = Some v -> Lexer.Len l = - len v).
Proof.
  intros (_ & Hb & Hp & _ & _). unfold Lexer.Len, Int.sub.
  split; [reflexivity|]. split; [|split].
  - intros H Hmin. rewrite wrap_small; [lia|].
    unfold Int.ok, Int.min, Int.max in *. lia.
  - intros H. rewrite wrap_small; [lia|].
    unfold Int.ok, Int.min, Int.max in *. lia.
  - intros v Hv. unfold Lexer.Value in Hv. apply slice_Some in Hv.
    rewrite wrap_small; [lia|].
    unfold Int.ok, Int.min, Int.max in *. lia.
Qed.

Lemma Len_is_negated_length_witness :
  let l := Lexer.set_pos 2 (Lexer.New (str "t") (str "abc")) in
  wf l /\ Lexer.Len l = -2 /\ Lexer.Value l = Some (str "ab").
Proof.
  intros l.
  assert (W : wf l) by (vm_compute; intuition discriminate).
  split; [exact W|].
  destruct (Len_is_negated_length l W) as (_ & _ & _ & H).
  split; [apply (H (str "ab")) |]; reflexivity.
Defined.

(** C7: [Peek] returns what [Next] returns from the same state and leaves
    the cursor, the pending text and the channel as they were: the state
    after [Peek] is the state before it, but for the recorded width.  From a
    cursor before the start of the input both calls panic. *)
Theorem Peek_returns_Next_and_restores_cursor (l : Lexer.t) :
  wf l ->
  (Lexer.pos l < 0 /\ Lexer.Next l = Panic /\ Lexer.Peek l = Panic) \/
  (exists r l1,
     Lexer.Next l = Ret r l1 /\
     Lexer.Peek l = Ret r (Lexer.set_width (Lexer.width l1) l) /\
     (Lexer.Next ;;; Lexer.Backup) l = Ret tt (Lexer.set_width (Lexer.width l1) l) /\
     Lexer.pos (Lexer.set_width (Lexer.width l1) l) = Lexer.pos l).
Proof.
  intros W. pose proof W as (_ & _ & Hp & _ & _).
  destruct (Z_lt_le_dec (Lexer.pos l) 0) as [Hneg|Hnn].
  - left. unfold Lexer.Peek, bind. rewrite (Next_before_start l Hneg). auto.
  - right. destruct (Z_le_gt_dec (len (Lexer.input l)) (Lexer.pos l)) as [Hend|Hin].
    + exists EOF, (Lexer.set_width 0 l).
      unfold Lexer.Peek, bind. rewrite (Next_at_end l Hend).
      unfold Lexer.Backup, ret, Int.sub. simpl.
      rewrite Z.sub_0_r, (wrap_small _ Hp).
      change (Lexer.set_pos (Lexer.pos l) (Lexer.set_width 0 l))
        with (Lexer.set_pos (Lexer.pos (Lexer.set_width 0 l)) (Lexer.set_width 0 l)).
      rewrite set_pos_same. auto.
    + destruct (Next_inside l W) as (r & w & HN & Hw & _); [lia|].
      exists r, (Lexer.set_pos (Lexer.pos l + w) (Lexer.set_width w l)).
      unfold Lexer.Peek, bind. rewrite HN.
      unfold Lexer.Backup, ret, Int.sub. simpl.
      replace (Lexer.pos l + w - w) with (Lexer.pos l) by lia.
      rewrite (wrap_small _ Hp).
      assert (E : Lexer.set_pos (Lexer.pos l)
                    (Lexer.set_pos (Lexer.pos l + w) (Lexer.set_width w l))
                  = Lexer.set_width w l) by (destruct l; reflexivity).
      rewrite E. auto.
Qed.

Lemma Peek_returns_Next_and_restores_cursor_witness :
  let l := Lexer.New (str "t") (str "ab") in
  wf l /\ Lexer.Peek l = Ret 97 (Lexer.set_width 1 l).
Proof.
  intros l.
  assert (W : wf l) by (vm_compute; intuition discriminate).
  split; [exact W|].
  destruct (Peek_returns_Next_and_restores_cursor l W)
    as [(H & _) | (r & l1 & HN & HP & _)].
  - vm_compute in H. discriminate.
  - vm_compute in HN. injection HN as <- <-. exact HP.
Defined.

(** C2, as stated, fails: after one [Next] on ["ab"] a first [Backup]
    returns the cursor to 0, and a second one returns normally as well and
    moves the cursor to -1. *)
Lemma second_Backup_returns_and_moves_cursor :
  exists r l1 l2 l3,
    Lexer.Next (Lexer.New (str "t") (str "ab")) = Ret r l1 /\
    Lexer.Backup l1 = Ret tt l2 /\ Lexer.pos l2 = 0 /\
    Lexer.Backup l2 = Ret tt l3 /\ Lexer.pos l3 = -1.
Proof. repeat eexists. Qed.

(** C2, amended: [Backup] never fails; it subtracts the recorded width from
    the cursor and leaves that width in place.  So after a [Next] that read
    a rune, the first [Backup] restores the cursor and a second one returns
    normally too, with the cursor one more rune width further back; calling
    [Backup] once per [Next] is left to the caller. *)
Theorem Backup_is_unchecked (l : Lexer.t) :
  wf l -> 0 <= Lexer.pos l < len (Lexer.input l) ->
  Lexer.Backup l = Ret tt (Lexer.set_pos (Int.sub (Lexer.pos l) (Lexer.width l)) l) /\
  exists r l1,
    Lexer.Next l = Ret r l1 /\ 1 <= Lexer.width l1 /\
    Lexer.Backup l1 = Ret tt (Lexer.set_pos (Lexer.pos l) l1) /\
    Lexer.Backup (Lexer.set_pos (Lexer.pos l) l1)
      = Ret tt (Lexer.set_pos (Lexer.pos l - Lexer.width l1) l1).
Proof.
  intros W Hin. split; [reflexivity|].
  pose proof W as (_ & _ & Hp & _ & Hlen).
  destruct (Next_inside l W Hin) as (r & w & HN & Hw & Hle & _).
  exists r, (Lexer.set_pos (Lexer.pos l + w) (Lexer.set_width w l)).
  split; [exact HN|]. simpl. split; [lia|].
  unfold Lexer.Backup, Int.sub. simpl.
  replace (Lexer.pos l + w - w) with (Lexer.pos l) by lia.
  rewrite (wrap_small _ Hp). split; [reflexivity|].
  rewrite wrap_small; [reflexivity|].
  unfold Int.ok, Int.min, Int.max in *. lia.
Qed.

Lemma Backup_is_unchecked_witness :
  let l := Lexer.New (str "t") (str "ab") in
  (wf l /\ 0 <= Lexer.pos l < len (Lexer.input l)) /\
  exists r l1,
    Lexer.Next l = Ret r l1 /\ 1 <= Lexer.width l1 /\
    Lexer.Backup l1 = Ret tt (Lexer.set_pos (Lexer.pos l) l1) /\
    Lexer.Backup (Lexer.set_pos (Lexer.pos l) l1)
      = Ret tt (Lexer.set_pos (Lexer.pos l - Lexer.width l1) l1).
Proof.
  intros l.
  assert (W : wf l) by (vm_compute; intuition discriminate).
  assert (H : 0 <= Lexer.pos l < len (Lexer.input l))
    by (vm_compute; split; [discriminate | reflexivity]).
  split; [exact (conj W H)|].
  exact (proj2 (Backup_is_unchecked l W H)).
Defined.

(** ** Line and column *)

(** C5, as stated, fails: the scanner reads ["ab\ncd"] and sends the token
    ["ab\n"], which starts at offset 0 and ends right after the newline; once
    the consumer has received it, the line reported is 1, not 2. *)
Lemma LineNumber_after_token_ending_at_newline :
  exists log l tok l',
    run 0 [ONext; ONext; ONext; OEmit 2] [] (Lexer.New (str "t") ab_nl_cd) = Ret log l /\
    Lexer.NextToken l = Ret tok l' /\
    tok = Token.mk 2 0 (str "ab" ++ [x0a]) /\
    Lexer.LineNumber l' = Some 1 /\
    Lexer.LineNumber l' <> Some 2 /\
    Lexer.ColumnNumber l' = Some 1.
Proof. repeat eexists. vm_compute. discriminate. Qed.

(** C5, amended: for the input ["ab\ncd"], after the consumer has received a
    token, [LineNumber] and [ColumnNumber] report the place where that token
    starts: line 1 and column [Pos + 1] for a token that starts before the
    end of the first line (so line 1, column 1 for ["ab\n"] at offset 0), and
    line 2, column [Pos - 2] for a token that starts after the newline (so
    line 2, column 1 for a token that starts right after it, at offset 3). *)
Theorem LineNumber_ColumnNumber_of_token_start (l : Lexer.t) (tok : Token.t) (q : list Token.t) :
  Lexer.input l = ab_nl_cd ->
  Lexer.tokens l = tok :: q ->
  0 <= Token.Pos tok <= 5 ->
  exists l',
    Lexer.NextToken l = Ret tok l' /\
    Lexer.LineNumber l' = Some (if Token.Pos tok <? 3 then 1 else 2) /\
    Lexer.ColumnNumber l' =
      Some (if Token.Pos tok <? 3 then Token.Pos tok + 1 else Token.Pos tok - 2).
Proof.
  intros Hin Htok Hpos.
  exists (Lexer.set_lastPos (Token.Pos tok) (Lexer.set_tokens q l)).
  split.
  - unfold Lexer.NextToken, bind, Lexer.recv. rewrite Htok. reflexivity.
  - unfold Lexer.LineNumber, Lexer.ColumnNumber. simpl. rewrite Hin.
    assert (C : Token.Pos tok = 0 \/ Token.Pos tok = 1 \/ Token.Pos tok = 2 \/
                Token.Pos tok = 3 \/ Token.Pos tok = 4 \/ Token.Pos tok = 5) by lia.
    destruct C as [-> | [-> | [-> | [-> | [-> | ->]]]]]; split; reflexivity.
Qed.

Lemma LineNumber_ColumnNumber_of_token_start_witness :
  let l := Lexer.set_tokens [Token.mk 2 3 (str "cd")]
             (Lexer.set_pos 5 (Lexer.set_base 5 (Lexer.New (str "t") ab_nl_cd))) in
  0 <= 3 <= 5 /\
  exists l',
    Lexer.NextToken l = Ret (Token.mk 2 3 (str "cd")) l' /\
    Lexer.LineNumber l' = Some 2 /\
    Lexer.ColumnNumber l' = Some 1.
Proof.
  intros l. split; [lia|].
  apply (LineNumber_ColumnNumber_of_token_start l (Token.mk 2 3 (str "cd")) []);
    [reflexivity | reflexivity | simpl; lia].
Defined.

(** ** The lookahead reader *)

Lemma Reader_Next_cases (r : Reader.t) :
  (Reader.upcoming r 0 = None /\ Reader.Next r = Block) \/
  (exists tok r',
     Reader.upcoming r 0 = Some tok /\
     Reader.Next r = Ret tok r' /\
     Reader.buf r' = None /\
     forall i, Reader.upcoming r' i = Reader.upcoming r (S i)).
Proof.
  destruct r as [l b]. unfold Reader.upcoming, Reader.pending, Reader.Next.
  simpl. destruct b as [tok|].
  - right. exists tok, (Reader.mk l None). simpl. auto.
  - unfold Reader.on_lex, Lexer.NextToken, bind, Lexer.recv. simpl.
    destruct (Lexer.tokens l) as [|tok q] eqn:Q; simpl.
    + destruct (Lexer.closed l) eqn:C.
      * right. exists Token.zero, (Reader.mk (Lexer.set_lastPos 0 l) None).
        simpl. rewrite Q, C. repeat split; auto.
        intros i. destruct i; reflexivity.
      * left. auto.
    + right.
      exists tok, (Reader.mk (Lexer.set_lastPos (Token.Pos tok) (Lexer.set_tokens q l)) None).
      simpl. auto.
Qed.

(** C8: [Peek] on the reader can be repeated.  Either no token is there yet
    and [Peek] waits, or it returns the next token [tok] and: a second [Peek]
    returns [tok] again and changes nothing; the two calls together took at
    most one token from the channel; [tok] stays buffered; and the following
    [Next] returns [tok] and empties the buffer. *)
Theorem Reader_Peek_idempotent (r : Reader.t) :
  (Reader.upcoming r 0 = None /\ Reader.Peek r = Block) \/
  (exists tok r1,
     Reader.upcoming r 0 = Some tok /\
     Reader.Peek r = Ret tok r1 /\
     Reader.Peek r1 = Ret tok r1 /\
     (x <- Reader.Peek ;; y <- Reader.Peek ;; ret (x, y)) r = Ret (tok, tok) r1 /\
     (Reader.lex r1 = Reader.lex r \/
      Lexer.NextToken (Reader.lex r) = Ret tok (Reader.lex r1)) /\
     Reader.buf r1 = Some tok /\
     Reader.Next r1 = Ret tok (Reader.mk (Reader.lex r1) None)).
Proof.
  destruct r as [l b]. destruct b as [tok|].
  - right. exists tok, (Reader.mk l (Some tok)).
    unfold Reader.upcoming, Reader.pending, Reader.Peek, Reader.Next, bind, ret.
    simpl. repeat split; auto.
  - unfold Reader.upcoming, Reader.pending. simpl.
    unfold Reader.Peek at 1 3. simpl.
    unfold bind at 1 3, Reader.on_lex, Lexer.NextToken, bind, Lexer.recv. simpl.
    destruct (Lexer.tokens l) as [|tok q] eqn:Q; simpl.
    + destruct (Lexer.closed l) eqn:C; [|left; auto].
      right. exists Token.zero, (Reader.mk (Lexer.set_lastPos 0 l) (Some Token.zero)).
      unfold Reader.Peek, Reader.Next, Reader.on_lex, Lexer.NextToken, bind,
        Lexer.recv, ret. simpl. rewrite Q, C. simpl. repeat split; auto.
    + right.
      exists tok, (Reader.mk (Lexer.set_lastPos (Token.Pos tok) (Lexer.set_tokens q l))
                             (Some tok)).
      unfold Reader.Peek, Reader.Next, Reader.on_lex, Lexer.NextToken, bind,
        Lexer.recv, ret. simpl. rewrite Q. simpl. repeat split; auto.
Qed.

Lemma Reader_Next_upcoming (r : Reader.t) (tok : Token.t) :
  Reader.upcoming r 0 = Some tok ->
  exists r',
    Reader.Next r = Ret tok r' /\
    forall i, Reader.upcoming r' i = Reader.upcoming r (S i).
Proof.
  intros H. destruct (Reader_Next_cases r) as [[E _] | (tok' & r' & E & HN & _ & Hup)].
  - congruence.
  - rewrite H in E. injection E as <-. eauto.
Qed.

(** What the loop of [Expect] does on every reader: it returns as soon as a
    token has the wrong type or all types are matched, and it waits only for
    a token that has not arrived while all the tokens before it matched. *)
Lemma Expect_loop_total (types : list Z) :
  forall (acc : list Token.t) (r : Reader.t),
  (exists read ok r',
     Reader.Expect_loop types acc r = Ret (acc ++ read, ok) r' /\
     (forall i tok, nth_error read i = Some tok -> Reader.upcoming r i = Some tok) /\
     (forall i, Reader.upcoming r' i = Reader.upcoming r (List.length read + i)) /\
     ((ok = true /\ map Token.Type_ read = types) \/
      (ok = false /\
       exists pre tok ty,
         read = pre ++ [tok] /\
         map Token.Type_ pre = firstn (List.length pre) types /\
         nth_error types (List.length pre) = Some ty /\
         Token.Type_ tok <> ty)))
  \/
  (Reader.Expect_loop types acc r = Block /\
   exists k,
     (k < List.length types)%nat /\ Reader.upcoming r k = None /\
     forall i ty, (i < k)%nat -> nth_error types i = Some ty ->
       exists tok, Reader.upcoming r i = Some tok /\ Token.Type_ tok = ty).
Proof.
  induction types as [|ty types IH]; intros acc r.
  - left. exists [], true, r. simpl. unfold ret. rewrite app_nil_r.
    repeat split; auto. intros [|i] tok; discriminate.
  - destruct (Reader_Next_cases r) as [[U0 HN] | (tok & r1 & U0 & HN & _ & Hup)].
    + right. simpl. unfold bind. rewrite HN. split; [reflexivity|].
      exists 0%nat. simpl. split; [lia|]. split; [exact U0|].
      intros i ty' Hi. lia.
    + simpl. unfold bind. rewrite HN.
      destruct (Token.Type_ tok =? ty) eqn:E; simpl.
      * apply Z.eqb_eq in E.
        destruct (IH (acc ++ [tok]) r1)
          as [(read & ok & r' & HE & Hin & Hrest & Hok) | (HB & k & Hk & Uk & Hm)].
        -- left. exists (tok :: read), ok, r'. rewrite HE, <- app_assoc. simpl.
           split; [reflexivity|]. split; [|split].
           ++ intros [|i] t Ht; simpl in Ht.
              ** injection Ht as <-. exact U0.
              ** rewrite <- Hup. apply Hin. exact Ht.
           ++ intros i. rewrite Hrest, Hup. reflexivity.
           ++ destruct Hok as [[-> Hm] | (-> & pre & t & ty' & -> & Hpre & Hty & Hne)].
              ** left. split; [reflexivity|]. simpl. congruence.
              ** right. split; [reflexivity|].
                 exists (tok :: pre), t, ty'. simpl. repeat split; auto. congruence.
        -- right. split; [exact HB|]. exists (S k). simpl.
           split; [lia|]. split; [rewrite <- Hup; exact Uk|].
           intros [|i] ty' Hi Hty; simpl in Hty.
           ++ injection Hty as <-. exists tok. auto.
           ++ rewrite <- Hup. apply Hm; [lia | exact Hty].
      * apply Z.eqb_neq in E. left.
        exists [tok], false, r1. unfold ret. split; [reflexivity|]. split; [|split].
        -- intros [|[|i]] t Ht; simpl in Ht; try discriminate.
           injection Ht as <-. exact U0.
        -- intros i. simpl. apply Hup.
        -- right. split; [reflexivity|]. exists [], tok, ty. simpl. auto.
Qed.

(** C6: on every reader [Expect] pulls tokens one at a time, in the order of
    the stream and with nothing skipped.  It returns as soon as a token has a
    type other than the expected one, whether or not more tokens are there,
    and that token is the last one returned; otherwise it returns when all
    the types are matched.  It returns exactly the tokens it has read, the
    flag is true exactly when these have the expected types, all of them, and
    the reader is left just past them.  It waits only for a token that has
    not arrived while every token before it had the expected type. *)
Theorem Expect_reads_until_first_mismatch (types : list Z) (r : Reader.t) :
  (exists toks ok r',
     Reader.Expect types r = Ret (toks, ok) r' /\
     (List.length toks <= List.length types)%nat /\
     (forall i tok, nth_error toks i = Some tok -> Reader.upcoming r i = Some tok) /\
     (forall i, Reader.upcoming r' i = Reader.upcoming r (List.length toks + i)) /\
     (ok = true <-> map Token.Type_ toks = types) /\
     (ok = false ->
      exists pre tok ty,
        toks = pre ++ [tok] /\
        map Token.Type_ pre = firstn (List.length pre) types /\
        nth_error types (List.length pre) = Some ty /\
        Token.Type_ tok <> ty))
  \/
  (Reader.Expect types r = Block /\
   exists k,
     (k < List.length types)%nat /\ Reader.upcoming r k = None /\
     forall i ty, (i < k)%nat -> nth_error types i = Some ty ->
       exists tok, Reader.upcoming r i = Some tok /\ Token.Type_ tok = ty).
Proof.
  unfold Reader.Expect.
  destruct (Expect_loop_total types [] r)
    as [(read & ok & r' & HE & Hin & Hrest & Hok) | HB]; [left | right; exact HB].
  exists read, ok, r'. simpl in HE. rewrite HE.
  split; [reflexivity|].
  assert (Hlen : (List.length read <= List.length types)%nat).
  { destruct Hok as [[_ Hm] | (_ & pre & t & ty & -> & _ & Hty & _)].
    - rewrite <- Hm, length_map. lia.
    - rewrite length_app. simpl.
      assert (List.length pre < List.length types)%nat
        by (apply nth_error_Some; congruence).
      lia. }
  repeat split; auto.
  - intros ->. destruct Hok as [[_ Hm] | [Hf _]]; [exact Hm | discriminate].
  - intros Hm. destruct Hok as [[-> _] | (_ & pre & t & ty & -> & _ & Hty & Hne)];
      [reflexivity|].
    exfalso. apply Hne. rewrite <- Hm, map_app in Hty. simpl in Hty.
    rewrite nth_error_app2 in Hty by (rewrite length_map; lia).
    rewrite length_map, Nat.sub_diag in Hty. simpl in Hty. congruence.
  - intros ->. destruct Hok as [[Hf _] | [_ H]]; [discriminate | exact H].
Qed.

Lemma Expect_reads_until_first_mismatch_witness :
  let tok := Token.mk 9 0 (str "a") in
  let r := Reader.NewReader
             (Lexer.set_tokens [tok] (Lexer.New (str "t") (str "abc"))) in
  Reader.upcoming r 1 = None /\
  exists r', Reader.Expect [2; 3] r = Ret ([tok], false) r'.
Proof.
  intros tok r. split; [reflexivity|].
  destruct (Expect_reads_until_first_mismatch [2; 3] r)
    as [(toks & ok & r' & HE & _) | (HB & _)].
  - exists r'. rewrite HE. vm_compute in HE. injection HE as <- <- _. reflexivity.
  - vm_compute in HB. discriminate.
Defined.

(** The two examples of the specification: against a stream that yields the
    types [(t1, t2, X)], [Expect [t1; t2; t3]] returns the three tokens, with
    the flag true when [X = t3] and false otherwise. *)
Lemma Expect_three (r : Reader.t) (a b c : Token.t) (t3 : Z) :
  Reader.upcoming r 0 = Some a ->
  Reader.upcoming r 1 = Some b ->
  Reader.upcoming r 2 = Some c ->
  exists r',
    Reader.Expect [Token.Type_ a; Token.Type_ b; t3] r
      = Ret ([a; b; c], Token.Type_ c =? t3) r'.
Proof.
  intros Ha Hb Hc.
  destruct (Reader_Next_upcoming r a Ha) as (r1 & N1 & U1).
  rewrite <- U1 in Hb, Hc.
  destruct (Reader_Next_upcoming r1 b Hb) as (r2 & N2 & U2).
  rewrite <- U2 in Hc.
  destruct (Reader_Next_upcoming r2 c Hc) as (r3 & N3 & U3).
  exists r3. unfold Reader.Expect. simpl. unfold bind.
  rewrite N1, Z.eqb_refl. simpl. rewrite N2, Z.eqb_refl. simpl. rewrite N3.
  destruct (Token.Type_ c =? t3); reflexivity.
Qed.

(** ** [AcceptButRun] *)

Lemma AcceptButRun_loop_step fuel invalid n l :
  Lexer.AcceptButRun_loop (S fuel) invalid n l =
  match Lexer.Next l with
  | Ret r l1 =>
    if strings.IndexRune invalid r <? 0
    then Lexer.AcceptButRun_loop fuel invalid (Int.add n (Lexer.width l1)) l1
    else Ret n (Lexer.set_pos (Int.sub (Lexer.pos l1) (Lexer.width l1)) l1)
  | Panic => Panic
  | Block => Block
  | Fuel => Fuel
  end.
Proof.
  simpl. unfold bind. destruct (Lexer.Next l); try reflexivity.
  destruct (strings.IndexRune invalid a <? 0); reflexivity.
Qed.

(** Once the cursor is at the end of the input the loop goes round for ever:
    [Next] returns the sentinel, which no excluded set contains. *)
Lemma AcceptButRun_loop_at_end fuel invalid :
  forall n l,
  len (Lexer.input l) <= Lexer.pos l ->
  Lexer.AcceptButRun_loop fuel invalid n l = Fuel.
Proof.
  induction fuel as [|fuel IH]; intros n l H; [reflexivity|].
  rewrite AcceptButRun_loop_step, (Next_at_end l H), IndexRune_EOF.
  change (-1 <? 0) with true. cbv iota. apply IH. exact H.
Qed.

(** C3, at the input where the code departs from it: on ["ab"], with the
    excluded set ["x"], [AcceptButRun] consumes ["ab"], reaches the end of the
    input and does not return, however many iterations it is given. *)
Theorem AcceptButRun_does_not_return_at_end_of_input :
  forall fuel,
    Lexer.AcceptButRun fuel (str "x") (Lexer.New (str "t") (str "ab")) = Fuel.
Proof.
  intros [|[|fuel]]; [reflexivity | reflexivity |].
  unfold Lexer.AcceptButRun.
  rewrite AcceptButRun_loop_step.
  change (Lexer.Next (Lexer.New (str "t") (str "ab")))
    with (Ret (S := Lexer.t) 97
            (Lexer.set_pos 1 (Lexer.set_width 1 (Lexer.New (str "t") (str "ab"))))).
  change (strings.IndexRune (str "x") 97 <? 0) with true. cbv iota.
  rewrite AcceptButRun_loop_step.
  change (Lexer.Next (Lexer.set_pos 1 (Lexer.set_width 1 (Lexer.New (str "t") (str "ab")))))
    with (Ret (S := Lexer.t) 98
            (Lexer.set_pos 2 (Lexer.set_width 1 (Lexer.New (str "t") (str "ab"))))).
  change (strings.IndexRune (str "x") 98 <? 0) with true. cbv iota.
  apply AcceptButRun_loop_at_end. vm_compute. discriminate.
Qed.

Lemma Next_ignores_width w l r l1 :
  Lexer.Next l = Ret r l1 -> Lexer.Next (Lexer.set_width w l) = Ret r l1.
Proof.
  unfold Lexer.Next. simpl.
  destruct (len (Lexer.input l) <=? Lexer.pos l); [intros H; exact H|].
  destruct (slice_from (Lexer.input l) (Lexer.pos l)) as [rest|]; [|discriminate].
  destruct (utf8.DecodeRuneInString rest). intros H; exact H.
Qed.

(** Where [AcceptButRun] does return, it is as the contract says: the cursor
    has advanced by the number returned and stands on an excluded rune of
    the input, and nothing else has moved. *)
Lemma AcceptButRun_loop_returns fuel invalid :
  forall n0 l n l',
  wf l -> 0 <= n0 <= Lexer.pos l ->
  Lexer.AcceptButRun_loop fuel invalid n0 l = Ret n l' ->
  n - n0 = Lexer.pos l' - Lexer.pos l /\
  Lexer.pos l <= Lexer.pos l' < len (Lexer.input l) /\
  Lexer.input l' = Lexer.input l /\ Lexer.base l' = Lexer.base l /\
  Lexer.tokens l' = Lexer.tokens l /\
  exists r l1, Lexer.Next l' = Ret r l1 /\ 0 <= strings.IndexRune invalid r.
Proof.
  induction fuel as [|fuel IH]; intros n0 l n l' W Hn H; [discriminate|].
  rewrite AcceptButRun_loop_step in H.
  pose proof W as (Hw & Hb & Hp & Hlp & Hlen).
  destruct (Z_le_gt_dec (len (Lexer.input l)) (Lexer.pos l)) as [Hend|Hin].
  { rewrite (Next_at_end l Hend), IndexRune_EOF in H.
    change (-1 <? 0) with true in H. cbv iota in H.
    rewrite AcceptButRun_loop_at_end in H by exact Hend. discriminate. }
  destruct (Next_inside l W) as (r & w & HN & Hw' & Hle & _); [lia|].
  rewrite HN in H.
  destruct (strings.IndexRune invalid r <? 0) eqn:E.
  - simpl in H. apply IH in H.
    + simpl in H. destruct H as (H1 & H2 & H3 & H4 & H5 & H6).
      unfold Int.add in H1. rewrite wrap_small in H1
        by (unfold Int.ok, Int.min, Int.max in *; lia).
      repeat split; auto; lia.
    + unfold wf, Int.ok, Int.min, Int.max in *. simpl. lia.
    + simpl. unfold Int.add. rewrite wrap_small
        by (unfold Int.ok, Int.min, Int.max in *; lia). lia.
  - apply Z.ltb_ge in E. injection H as <- <-. simpl.
    unfold Int.sub. replace (Lexer.pos l + w - w) with (Lexer.pos l) by lia.
    rewrite (wrap_small _ Hp).
    repeat split; auto; try lia.
    exists r, (Lexer.set_pos (Lexer.pos l + w) (Lexer.set_width w l)).
    split; [|exact E].
    assert (Es : Lexer.set_pos (Lexer.pos l)
                   (Lexer.set_pos (Lexer.pos l + w) (Lexer.set_width w l))
                 = Lexer.set_width w l) by (destruct l; reflexivity).
    rewrite Es. apply Next_ignores_width. exact HN.
Qed.

(** The sibling [AcceptRun] stops at the end of the input: the sentinel is
    not in the valid set either, and there that ends the loop. *)
Lemma AcceptRun_returns_at_end fuel valid l :
  wf l -> len (Lexer.input l) <= Lexer.pos l ->
  Lexer.AcceptRun (S fuel) valid l = Ret 0 (Lexer.set_width 0 l).
Proof.
  intros (_ & _ & Hp & _) H. unfold Lexer.AcceptRun. simpl. unfold bind.
  rewrite (Next_at_end l H), IndexRune_EOF. simpl.
  unfold Lexer.Backup, ret, Int.sub. simpl.
  rewrite Z.sub_0_r, (wrap_small _ Hp).
  change (Lexer.set_pos (Lexer.pos l) (Lexer.set_width 0 l))
    with (Lexer.set_pos (Lexer.pos (Lexer.set_width 0 l)) (Lexer.set_width 0 l)).
  rewrite set_pos_same. reflexivity.
Qed.

(** ** Calls that leave the pending text and the channel alone *)

Lemma frames_ret {A} (a : A) : frames (ret a).
Proof. intros l a' l' H. injection H as _ <-. auto. Qed.

Lemma frames_bind {A B} (m : M Lexer.t A) (k : A -> M Lexer.t B) :
  frames m -> (forall a, frames (k a)) -> frames (bind m k).
Proof.
  intros Hm Hk l b l' H. unfold bind in H.
  destruct (m l) as [a l1| | |] eqn:E; try discriminate.
  destruct (Hm _ _ _ E) as (E1 & E2 & E3 & E4).
  destruct (Hk a _ _ _ H) as (F1 & F2 & F3 & F4).
  repeat split; congruence.
Qed.

Lemma frames_Next : frames Lexer.Next.
Proof.
  intros l r l' H. unfold Lexer.Next in H.
  destruct (len (Lexer.input l) <=? Lexer.pos l).
  - injection H as _ <-. auto.
  - destruct (slice_from (Lexer.input l) (Lexer.pos l)) as [rest|]; [|discriminate].
    destruct (utf8.DecodeRuneInString rest) as [r0 w].
    injection H as _ <-. auto.
Qed.

Lemma frames_Backup : frames Lexer.Backup.
Proof. intros l a l' H. inversion H; subst. simpl. auto. Qed.

Lemma frames_Inc n : frames (Lexer.Inc n).
Proof. intros l a l' H. inversion H; subst. simpl. auto. Qed.

Lemma frames_Dec n : frames (Lexer.Dec n).
Proof. intros l a l' H. inversion H; subst. simpl. auto. Qed.

Lemma frames_Consume s : frames (Lexer.Consume s).
Proof.
  intros l a l' H. unfold Lexer.Consume in H.
  destruct (Lexer.HasPrefix s l) as [[|]|]; try discriminate;
    injection H as _ <-; auto.
Qed.

Create HintDb frames.

#[local] Hint Resolve frames_ret frames_Next frames_Backup frames_Inc frames_Dec
  frames_Consume : frames.

Lemma frames_if {A} (c : bool) (m1 m2 : M Lexer.t A) :
  frames m1 -> frames m2 -> frames (if c then m1 else m2).
Proof. destruct c; auto. Qed.

Ltac frames_tac :=
  repeat first
    [ apply frames_bind; [|intros ?]
    | apply frames_if
    | solve [auto with frames] ].

Lemma frames_Peek : frames Lexer.Peek.
Proof. unfold Lexer.Peek. frames_tac. Qed.

Lemma frames_Accept valid : frames (Lexer.Accept valid).
Proof. unfold Lexer.Accept. frames_tac. Qed.

Lemma frames_AcceptFunc f : frames (Lexer.AcceptFunc f).
Proof. unfold Lexer.AcceptFunc. frames_tac. Qed.

Lemma frames_AcceptBut invalid : frames (Lexer.AcceptBut invalid).
Proof. unfold Lexer.AcceptBut. frames_tac. Qed.

Lemma frames_rec {A} (m : Z -> M Lexer.t A) :
  (forall n, frames (m n)) ->
  forall n, frames (fun l => m (Int.add n (Lexer.width l)) l).
Proof. intros H n l a l' E. exact (H _ _ _ _ E). Qed.

Lemma frames_AcceptRun fuel valid : frames (Lexer.AcceptRun fuel valid).
Proof.
  unfold Lexer.AcceptRun. generalize 0.
  induction fuel as [|fuel IH]; intros n; simpl.
  - intros l a l' H. discriminate.
  - frames_tac. apply (frames_rec _ IH).
Qed.

Lemma frames_AcceptFuncRun fuel f : frames (Lexer.AcceptFuncRun fuel f).
Proof.
  unfold Lexer.AcceptFuncRun. generalize 0.
  induction fuel as [|fuel IH]; intros n; simpl.
  - intros l a l' H. discriminate.
  - frames_tac. apply (frames_rec _ IH).
Qed.

Lemma frames_AcceptButRun fuel invalid : frames (Lexer.AcceptButRun fuel invalid).
Proof.
  unfold Lexer.AcceptButRun. generalize 0.
  induction fuel as [|fuel IH]; intros n; simpl.
  - intros l a l' H. discriminate.
  - frames_tac. apply (frames_rec _ IH).
Qed.

#[local] Hint Resolve frames_Peek frames_Accept frames_AcceptFunc frames_AcceptBut
  frames_AcceptRun frames_AcceptFuncRun frames_AcceptButRun : frames.

(** Every call but [Emit], [Ignore] and [Errorf] is of that kind. *)
Lemma exec_frames fuel o :
  match o with OEmit _ | OIgnore | OErrorf _ => True | _ => frames (exec fuel o) end.
Proof.
  destruct o; simpl; auto; unfold void; frames_tac.
Qed.

(** ** The positions of the tokens sent *)

Lemma StronglySorted_snoc (xs : list Z) (b : Z) :
  StronglySorted Z.le xs -> Forall (fun p => p <= b) xs ->
  StronglySorted Z.le (xs ++ [b]).
Proof.
  induction 1 as [|a xs Hs IH Ha]; intros Hb; simpl.
  - constructor; constructor.
  - inversion Hb; subst. constructor; [auto|].
    apply Forall_app. split; [exact Ha | constructor; [assumption | constructor]].
Qed.

Lemma Forall_le_trans (xs : list Z) (b c : Z) :
  b <= c -> Forall (fun p => p <= b) xs -> Forall (fun p => p <= c) xs.
Proof.
  intros Hbc H. eapply Forall_impl; [|exact H]. cbv beta. intros; lia.
Qed.

Lemma ordered_send (l : Lexer.t) (tok : Token.t) (l' : Lexer.t) :
  Lexer.send tok l = Ret tt l' ->
  Token.Pos tok = Lexer.base l ->
  ordered l ->
  ordered l' /\ Lexer.base l' = Lexer.base l /\ Lexer.pos l' = Lexer.pos l /\
  Lexer.tokens l' = Lexer.tokens l ++ [tok].
Proof.
  unfold Lexer.send. destruct (Lexer.closed l); [discriminate|].
  intros H Hp [Hs Hf]. injection H as <-. unfold ordered. simpl.
  rewrite map_app. simpl. rewrite Hp. repeat split; auto.
  - apply StronglySorted_snoc; assumption.
  - apply Forall_app. split; [assumption|]. constructor; [lia | constructor].
Qed.

Lemma ordered_set_base (l : Lexer.t) (b : Z) :
  Lexer.base l <= b -> ordered l -> ordered (Lexer.set_base b l).
Proof.
  intros Hb [Hs Hf]. split; simpl; [exact Hs|].
  eapply Forall_le_trans; eassumption.
Qed.

Lemma ordered_frame (l l' : Lexer.t) :
  Lexer.base l' = Lexer.base l -> Lexer.tokens l' = Lexer.tokens l ->
  ordered l -> ordered l'.
Proof. unfold ordered. intros -> ->. auto. Qed.

(** One call keeps the order, unless it is an [Ignore] with the cursor before
    the start of the pending text. *)
Lemma exec_ordered fuel o l l' :
  exec fuel o l = Ret tt l' ->
  (o = OIgnore -> Lexer.base l <= Lexer.pos l) ->
  ordered l -> ordered l'.
Proof.
  intros H Hg Hord. pose proof (exec_frames fuel o) as Hfr.
  destruct o; simpl in H;
    try (destruct (Hfr _ _ _ H) as (E1 & E2 & _); exact (ordered_frame _ _ E1 E2 Hord)).
  - (* Emit *)
    unfold Lexer.Emit in H.
    destruct (slice (Lexer.input l) (Lexer.base l) (Lexer.pos l)) as [v|] eqn:S;
      [|discriminate].
    apply slice_Some in S. unfold bind in H.
    destruct (Lexer.send _ l) as [[] l1| | |] eqn:Es; try discriminate.
    injection H as <-.
    destruct (ordered_send _ _ _ Es eq_refl Hord) as (Ho & Eb & Ep & _).
    apply ordered_set_base; [lia | exact Ho].
  - (* Ignore *)
    injection H as <-. apply ordered_set_base; auto.
  - (* Errorf *)
    unfold Lexer.Errorf in H.
    destruct (ordered_send _ _ _ H eq_refl Hord) as (Ho & _). exact Ho.
Qed.

Lemma run_log_extends fuel ops :
  forall log l log' l',
  run fuel ops log l = Ret log' l' -> exists ext, log' = log ++ ext.
Proof.
  induction ops as [|o ops IH]; intros log l log' l' H; simpl in H.
  - injection H as <- _. exists []. symmetry. apply app_nil_r.
  - unfold bind in H. destruct (exec fuel o l) as [[] l1| | |]; try discriminate.
    apply IH in H. destruct H as [ext ->]. rewrite <- app_assoc. eauto.
Qed.

Lemma run_ordered fuel ops :
  forall log l log' l',
  run fuel ops log l = Ret log' l' ->
  (forall a b, In (Ignored a b) log' -> a <= b) ->
  ordered l -> ordered l'.
Proof.
  induction ops as [|o ops IH]; intros log l log' l' H Hg Hord; simpl in H.
  - injection H as _ <-. exact Hord.
  - unfold bind in H. destruct (exec fuel o l) as [[] l1| | |] eqn:E; try discriminate.
    pose proof (run_log_extends _ _ _ _ _ _ H) as [ext ->].
    apply (IH _ _ _ _ H Hg).
    apply (exec_ordered _ _ _ _ E); [|exact Hord].
    intros ->. apply Hg. simpl. rewrite !in_app_iff. left. right. left. reflexivity.
Qed.

(** The log put beside the run agrees with the channel: the tokens sent
    during the run are the [Emitted] events of the log, in order. *)
Lemma run_tokens fuel ops :
  forall log l log' l',
  run fuel ops log l = Ret log' l' ->
  exists ext,
    log' = log ++ ext /\ Lexer.tokens l' = Lexer.tokens l ++ emitted ext.
Proof.
  assert (emitted_app : forall l1 l2, emitted (l1 ++ l2) = emitted l1 ++ emitted l2).
  { induction l1 as [|[tok|a b] l1 IH1]; intros l2; simpl; rewrite ?IH1; reflexivity. }
  induction ops as [|o ops IH]; intros log l log' l' H; simpl in H.
  - injection H as <- <-. exists []. rewrite !app_nil_r. auto.
  - unfold bind in H. destruct (exec fuel o l) as [[] l1| | |] eqn:E; try discriminate.
    destruct (IH _ _ _ _ H) as (ext & -> & Ht).
    exists (observe o l ++ ext). rewrite <- app_assoc. split; [reflexivity|].
    rewrite Ht, emitted_app, app_assoc. f_equal.
    pose proof (exec_frames fuel o) as Hfr.
    destruct o; simpl in E;
      try (destruct (Hfr _ _ _ E) as (_ & -> & _); simpl; symmetry; apply app_nil_r).
    + unfold Lexer.Emit in E. simpl. unfold Lexer.Value.
      destruct (slice (Lexer.input l) (Lexer.base l) (Lexer.pos l)) as [v|];
        [|discriminate].
      unfold bind, Lexer.send in E. destruct (Lexer.closed l); [discriminate|].
      injection E as <-. reflexivity.
    + injection E as <-. simpl. symmetry. apply app_nil_r.
    + unfold Lexer.Errorf, Lexer.send in E. destruct (Lexer.closed l); [discriminate|].
      injection E as <-. reflexivity.
Qed.

(** C4, as stated, fails: [Dec] moves the cursor back before the start of
    the pending text and [Ignore] then moves that start back with it, so the
    third token of this run on ["ab"] has position 0 after positions 0 and 1. *)
Lemma positions_decrease_after_Dec_and_Ignore :
  exists log l,
    run 0 [ONext; OEmit 2; ONext; OEmit 2; ODec 2; OIgnore; OEmit 2] []
        (Lexer.New (str "t") (str "ab")) = Ret log l /\
    map Token.Pos (Lexer.tokens l) = [0; 1; 0] /\
    ~ StronglySorted Z.le (map Token.Pos (Lexer.tokens l)).
Proof.
  eexists. eexists. split; [reflexivity|].
  match goal with
  | |- ?m = _ /\ _ => assert (E : m = [0; 1; 0]) by reflexivity; rewrite E
  end.
  split; [reflexivity|]. intros H.
  inversion H as [|a1 r1 S1 _]; subst. inversion S1 as [|a2 r2 _ F2]; subst.
  inversion F2 as [|a3 r3 L _]; subst. lia.
Qed.

(** C4, amended: for every input and every sequence of scanner calls in
    which [Ignore] is never called with the cursor before the start of the
    pending text, the positions of the tokens sent, in the order in which
    they were sent, never decrease. *)
Theorem positions_of_emitted_tokens_sorted
  (fuel : nat) (name input : gostring) (ops : list op)
  (log : list event) (l : Lexer.t) :
  run fuel ops [] (Lexer.New name input) = Ret log l ->
  (forall a b, In (Ignored a b) log -> a <= b) ->
  Lexer.tokens l = emitted log /\
  StronglySorted Z.le (map Token.Pos (emitted log)).
Proof.
  intros H Hg.
  destruct (run_tokens _ _ _ _ _ _ H) as (ext & E & Ht). simpl in E, Ht. subst ext.
  split; [exact Ht|]. rewrite <- Ht.
  apply (run_ordered _ _ _ _ _ _ H Hg).
  split; simpl; constructor.
Qed.

Lemma positions_of_emitted_tokens_sorted_witness :
  let ops := [OAcceptRun (str "a"); OEmit 2; OAcceptBut (str "a"); OIgnore;
              OPeek; ONext; OEmit 3; OErrorf (str "bad")] in
  exists log l,
    run 5 ops [] (Lexer.New (str "t") (str "aab c")) = Ret log l /\
    (forall a b, In (Ignored a b) log -> a <= b) /\
    map Token.Pos (Lexer.tokens l) = [0; 3; 4] /\
    StronglySorted Z.le (map Token.Pos (emitted log)).
Proof.
  intros ops.
  destruct (run 5 ops [] (Lexer.New (str "t") (str "aab c"))) as [log l| | |] eqn:E;
    try (vm_compute in E; discriminate).
  exists log, l.
  assert (G : forall a b, In (Ignored a b) log -> a <= b).
  { vm_compute in E. injection E as <- _. intros a b [H|[H|[H|[H|[]]]]];
      try discriminate. injection H as <- <-. lia. }
  split; [reflexivity|]. split; [exact G|]. split.
  - vm_compute in E. injection E as _ <-. reflexivity.
  - exact (proj2 (positions_of_emitted_tokens_sorted 5 (str "t") (str "aab c") ops log l E G)).
Defined.

(** ** The text of the tokens sent *)

Lemma tiles_le inp a c log : tiles inp a c log -> a <= c.
Proof.
  induction 1 as [a | a b c ty v log S _ IH | a b c log Hab _ IH]; try lia.
  apply slice_Some in S. lia.
Qed.

Lemma tiles_snoc_emit inp a b c ty v log :
  tiles inp a b log -> slice inp b c = Some v ->
  tiles inp a c (log ++ [Emitted (Token.mk ty b v)]).
Proof.
  intros T S. induction T as [a | a b' c' ty' v' log S' T' IH | a b' c' log Hab T' IH];
    simpl.
  - econstructor; [exact S | constructor].
  - econstructor; [exact S' | exact (IH S)].
  - econstructor; [exact Hab | exact (IH S)].
Qed.

Lemma tiles_snoc_ignore inp a b c log :
  tiles inp a b log -> b <= c -> tiles inp a c (log ++ [Ignored b c]).
Proof.
  intros T L. induction T as [a | a b' c' ty' v' log S' T' IH | a b' c' log Hab T' IH];
    simpl.
  - econstructor; [exact L | constructor].
  - econstructor; [exact S' | exact (IH L)].
  - econstructor; [exact Hab | exact (IH L)].
Qed.

Lemma tiles_ignored_after inp a c log :
  tiles inp a c log -> Forall (fun sp => a <= fst sp) (ignored log).
Proof.
  induction 1 as [a | a b c ty v log S _ IH | a b c log Hab _ IH]; simpl.
  - constructor.
  - apply slice_Some in S. eapply Forall_impl; [|exact IH]. cbv beta. intros; lia.
  - constructor; [simpl; lia|].
    eapply Forall_impl; [|exact IH]. cbv beta. intros; lia.
Qed.

Lemma firstn_plus {A} (n m : nat) (l : list A) :
  firstn (n + m) l = firstn n l ++ firstn m (skipn n l).
Proof.
  revert l. induction n as [|n IH]; intros l; simpl; [reflexivity|].
  destruct l as [|x l]; simpl.
  - rewrite firstn_nil. reflexivity.
  - rewrite IH. reflexivity.
Qed.

Lemma slice_split s a b c v :
  slice s a c = Some v -> a <= b <= c ->
  exists v1 v2, slice s a b = Some v1 /\ slice s b c = Some v2 /\ v = v1 ++ v2.
Proof.
  intros S Hb. apply slice_Some in S. destruct S as (Ha & Hc & _ & ->).
  destruct (slice_ok s a b) as [v1 S1]; try lia.
  destruct (slice_ok s b c) as [v2 S2]; try lia.
  exists v1, v2. split; [exact S1|]. split; [exact S2|].
  apply slice_Some in S1, S2.
  destruct S1 as (_ & _ & _ & ->). destruct S2 as (_ & _ & _ & ->).
  replace (Z.to_nat (c - a)) with (Z.to_nat (b - a) + Z.to_nat (c - b))%nat by lia.
  rewrite firstn_plus, skipn_skipn.
  replace (Z.to_nat (b - a) + Z.to_nat a)%nat with (Z.to_nat b) by lia.
  reflexivity.
Qed.

Lemma remove_from_app i s1 s2 spans :
  remove_from i (s1 ++ s2) spans =
  remove_from i s1 spans ++ remove_from (i + len s1) s2 spans.
Proof.
  revert i. induction s1 as [|b s1 IH]; intros i; simpl.
  - change (len []) with 0. rewrite Z.add_0_r. reflexivity.
  - rewrite IH, len_cons.
    replace (i + 1 + len s1) with (i + (1 + len s1)) by lia.
    destruct (existsb (in_span i) spans); reflexivity.
Qed.

(** Text that no span touches is kept. *)
Lemma remove_from_outside v :
  forall i spans,
  Forall (fun sp => snd sp <= i \/ i + len v <= fst sp) spans ->
  remove_from i v spans = v.
Proof.
  induction v as [|b v IH]; intros i spans H; simpl; [reflexivity|].
  rewrite len_cons in H. pose proof (len_nonneg v).
  assert (E : existsb (in_span i) spans = false).
  { induction H as [|sp spans Hsp _ IHs]; simpl; [reflexivity|].
    rewrite IHs, orb_false_r. unfold in_span.
    destruct Hsp; [apply andb_false_intro2 | apply andb_false_intro1];
      [apply Z.ltb_ge | apply Z.leb_gt]; lia. }
  rewrite E. f_equal. apply IH.
  eapply Forall_impl; [|exact H]. cbv beta. intros; lia.
Qed.

(** Text that lies within one of the spans is dropped. *)
Lemma remove_from_inside v :
  forall i a b spans,
  In (a, b) spans -> a <= i -> i + len v <= b ->
  remove_from i v spans = [].
Proof.
  induction v as [|c v IH]; intros i a b spans Hin Ha Hb; simpl; [reflexivity|].
  rewrite len_cons in Hb. pose proof (len_nonneg v).
  assert (E : existsb (in_span i) spans = true).
  { apply existsb_exists. exists (a, b). split; [exact Hin|].
    unfold in_span. simpl. apply andb_true_intro.
    split; [apply Z.leb_le | apply Z.ltb_lt]; lia. }
  rewrite E. apply (IH _ a b); auto; lia.
Qed.

(** The tokens of a tiling carry the text it covers, less the ignored spans. *)
Lemma tiles_text inp a c log :
  tiles inp a c log ->
  forall before text,
  Forall (fun sp => snd sp <= a) before ->
  slice inp a c = Some text ->
  List.concat (map Token.Value (emitted log)) = remove_from a text (before ++ ignored log).
Proof.
  induction 1 as [a | a b c ty v log S T IH | a b c log Hab T IH];
    intros before text Hbef Stext; simpl.
  - apply slice_Some in Stext. destruct Stext as (_ & _ & Hl & _).
    destruct text; [reflexivity|]. rewrite len_cons in Hl.
    pose proof (len_nonneg text). lia.
  - pose proof (tiles_le _ _ _ _ T) as Hbc.
    pose proof (slice_Some _ _ _ _ S) as (Hab & _ & Hlv & _).
    destruct (slice_split _ _ b _ _ Stext) as (v1 & v2 & S1 & S2 & ->); [lia|].
    rewrite S in S1. injection S1 as <-.
    rewrite remove_from_app, Hlv. replace (a + (b - a)) with b by lia.
    rewrite remove_from_outside.
    + f_equal. apply IH; [|exact S2].
      eapply Forall_impl; [|exact Hbef]. cbv beta. intros; lia.
    + apply Forall_app. split.
      * eapply Forall_impl; [|exact Hbef]. cbv beta. intros; lia.
      * eapply Forall_impl; [|exact (tiles_ignored_after _ _ _ _ T)].
        cbv beta. intros; lia.
  - pose proof (tiles_le _ _ _ _ T) as Hbc.
    pose proof (slice_Some _ _ _ _ Stext) as (Ha & _).
    destruct (slice_split _ _ b _ _ Stext) as (v1 & v2 & S1 & S2 & ->); [lia|].
    pose proof (slice_Some _ _ _ _ S1) as (_ & _ & Hl1 & _).
    rewrite remove_from_app, Hl1. replace (a + (b - a)) with b by lia.
    rewrite (remove_from_inside v1 a a b);
      [| apply in_or_app; right; left; reflexivity | lia | lia ].
    simpl.
    replace (before ++ (a, b) :: ignored log)
      with ((before ++ [(a, b)]) ++ ignored log) by (rewrite <- app_assoc; reflexivity).
    apply IH; [|exact S2].
    apply Forall_app. split.
    + eapply Forall_impl; [|exact Hbef]. cbv beta. intros; lia.
    + constructor; [simpl; lia | constructor].
Qed.

Lemma wf_set_pos l p :
  wf l -> Int.ok p -> wf (Lexer.set_pos p l).
Proof. unfold wf. simpl. intuition. Qed.

Lemma wf_set_base l b :
  wf l -> Int.ok b -> wf (Lexer.set_base b l).
Proof. unfold wf. simpl. intuition. Qed.

Lemma wf_set_width l w :
  wf l -> Int.ok w -> wf (Lexer.set_width w l).
Proof. unfold wf. simpl. intuition. Qed.

Lemma ok_between z : 0 <= z <= Int.max -> Int.ok z.
Proof. unfold Int.ok, Int.min, Int.max. lia. Qed.

Lemma disciplined_intro l log :
  wf l -> Lexer.closed l = false ->
  0 <= Lexer.base l -> Lexer.base l <= Lexer.pos l ->
  Lexer.pos l <= len (Lexer.input l) ->
  tiles (Lexer.input l) 0 (Lexer.base l) log ->
  disciplined l log.
Proof. unfold disciplined. intuition. Qed.

(** A run that keeps the discipline never fails, and keeps the discipline. *)
Lemma run_disciplined fuel ops :
  forall armed log l,
  consistent armed ops = true ->
  disciplined l log -> undoable armed l ->
  exists log' l',
    run fuel ops log l = Ret log' l' /\
    disciplined l' log' /\ Lexer.input l' = Lexer.input l.
Proof.
  induction ops as [|o ops IH]; intros armed log l Hc D U.
  { exists log, l. simpl. auto. }
  destruct D as (W & Hcl & Hbp & Hpl & T).
  pose proof W as (Hw & Hb & Hp & Hlp & Hlen).
  assert (Hmax : Int.max = 2 ^ 63 - 1) by reflexivity.
  destruct o; simpl in Hc; try discriminate.
  - (* Next *)
    destruct (Z_le_gt_dec (len (Lexer.input l)) (Lexer.pos l)) as [Hend|Hin].
    + destruct (IH true log (Lexer.set_width 0 l)) as (log' & l' & R & D' & I); auto.
      * apply disciplined_intro; simpl; auto; try lia.
        apply wf_set_width; auto. apply ok_between. lia.
      * intros _. simpl. lia.
      * exists log', l'. simpl. unfold bind, void, bind.
        rewrite (Next_at_end l Hend). unfold ret. simpl. rewrite app_nil_r. auto.
    + destruct (Next_inside l W) as (r & w & HN & Hw' & Hle & _); [lia|].
      destruct (IH true log (Lexer.set_pos (Lexer.pos l + w) (Lexer.set_width w l)))
        as (log' & l' & R & D' & I); auto.
      * apply disciplined_intro; simpl; auto; try lia.
        apply wf_set_pos; [apply wf_set_width; auto|]; apply ok_between; lia.
      * intros _. simpl. lia.
      * exists log', l'. simpl. unfold bind, void, bind.
        rewrite HN. unfold ret. simpl. rewrite app_nil_r. auto.
  - (* Backup *)
    apply andb_prop in Hc. destruct Hc as [-> Hc].
    destruct (U eq_refl) as [Uw Ub].
    assert (E : Int.sub (Lexer.pos l) (Lexer.width l) = Lexer.pos l - Lexer.width l).
    { unfold Int.sub. apply wrap_small. apply ok_between. lia. }
    destruct (IH false log (Lexer.set_pos (Lexer.pos l - Lexer.width l) l))
      as (log' & l' & R & D' & I); auto.
    + apply disciplined_intro; simpl; auto; try lia.
      apply wf_set_pos; auto. apply ok_between. lia.
    + intros Hf. discriminate.
    + exists log', l'. simpl. unfold bind, Lexer.Backup. rewrite E.
      simpl. rewrite app_nil_r. auto.
  - (* Emit *)
    destruct (slice_ok (Lexer.input l) (Lexer.base l) (Lexer.pos l)) as [v S]; try lia.
    destruct (IH false (log ++ [Emitted (Token.mk ty (Lexer.base l) v)])
                (Lexer.set_base (Lexer.pos l)
                   (Lexer.set_tokens (Lexer.tokens l ++ [Token.mk ty (Lexer.base l) v]) l)))
      as (log' & l' & R & D' & I); auto.
    + apply disciplined_intro; simpl; auto; try lia.
      * unfold wf in *. simpl. intuition.
      * apply tiles_snoc_emit; assumption.
    + intros Hf. discriminate.
    + exists log', l'. simpl. unfold bind, Lexer.Emit, Lexer.Value.
      rewrite S. unfold bind, Lexer.send. rewrite Hcl. simpl. auto.
  - (* Ignore *)
    destruct (IH false (log ++ [Ignored (Lexer.base l) (Lexer.pos l)])
                (Lexer.set_base (Lexer.pos l) l))
      as (log' & l' & R & D' & I); auto.
    + apply disciplined_intro; simpl; auto; try lia.
      * unfold wf in *. simpl. intuition.
      * apply tiles_snoc_ignore; [assumption | lia].
    + intros Hf. discriminate.
    + exists log', l'. simpl. unfold bind, Lexer.Ignore. simpl. auto.
Qed.

(** C1, as stated, fails: a run may stop before the end of the input.  After
    [Next] and [Emit] on ["ab"] the one token sent is ["a"]; nothing was
    ignored, and the input is ["ab"]. *)
Lemma emitted_text_stops_where_the_run_stops :
  once_per_next false [ONext; OEmit 2] = true /\
  consistent false [ONext; OEmit 2] = true /\
  ~ whole_input_covered (str "ab") [ONext; OEmit 2].
Proof.
  split; [reflexivity|]. split; [reflexivity|].
  intros H. specialize (H 0%nat (str "t") _ _ eq_refl). discriminate H.
Qed.

(** A [Backup] that comes after the [Emit] of the rune it steps over is once
    per [Next] to the letter, and yet the rune is sent twice: hence the
    stricter discipline [consistent] in the amended statement. *)
Lemma Backup_after_Emit_repeats_text :
  exists log l,
    once_per_next false [ONext; OEmit 2; OBackup; OIgnore; ONext; OEmit 2] = true /\
    run 0 [ONext; OEmit 2; OBackup; OIgnore; ONext; OEmit 2] []
        (Lexer.New (str "t") (str "a")) = Ret log l /\
    List.concat (map Token.Value (Lexer.tokens l)) = str "aa".
Proof. repeat eexists. Qed.

(** C1, amended: for every input and every finite sequence of [Next],
    [Backup], [Emit] and [Ignore] in which each [Backup] undoes the [Next]
    just before it, the run does not fail; the tokens sent and the spans
    ignored lie end to end from the start of the input to the start of the
    pending text, each token with its own offset and text; and so the values
    of the tokens, put end to end, are the input up to the start of the
    pending text without the ignored spans: the whole input without them
    once everything has been consumed and emitted or ignored. *)
Theorem emitted_text_is_consumed_input_minus_ignored
  (fuel : nat) (name input : gostring) (ops : list op) :
  len input <= Int.max ->
  consistent false ops = true ->
  exists log l,
    run fuel ops [] (Lexer.New name input) = Ret log l /\
    Lexer.tokens l = emitted log /\
    0 <= Lexer.base l <= Lexer.pos l /\ Lexer.pos l <= len input /\
    tiles input 0 (Lexer.base l) log /\
    List.concat (map Token.Value (Lexer.tokens l))
      = remove_spans (firstn (Z.to_nat (Lexer.base l)) input) (ignored log) /\
    (Lexer.base l = len input ->
     List.concat (map Token.Value (Lexer.tokens l)) = remove_spans input (ignored log)).
Proof.
  intros Hlen Hc.
  pose proof (len_nonneg input) as Hnn.
  destruct (run_disciplined fuel ops false [] (Lexer.New name input) Hc)
    as (log & l & R & D & I).
  { apply disciplined_intro;
      [ | reflexivity | simpl; lia | simpl; lia | simpl; lia | constructor ].
    unfold wf, Int.ok, Int.min, Int.max in *. simpl. lia. }
  { intros Hf. discriminate. }
  simpl in I. destruct D as (_ & _ & Hbp & Hpl & T). rewrite I in Hpl, T.
  destruct (run_tokens _ _ _ _ _ _ R) as (ext & E & Ht). simpl in E, Ht. subst ext.
  exists log, l. split; [exact R|]. split; [exact Ht|].
  split; [exact Hbp|]. split; [exact Hpl|]. split; [exact T|].
  assert (S : slice input 0 (Lexer.base l)
              = Some (firstn (Z.to_nat (Lexer.base l)) input)).
  { unfold slice.
    replace ((0 <=? 0) && (0 <=? Lexer.base l) && (Lexer.base l <=? len input))
      with true.
    - rewrite Z.sub_0_r. reflexivity.
    - symmetry. rewrite !andb_true_iff, !Z.leb_le. lia. }
  assert (Et : List.concat (map Token.Value (Lexer.tokens l))
               = remove_spans (firstn (Z.to_nat (Lexer.base l)) input) (ignored log)).
  { rewrite Ht. unfold remove_spans.
    apply (tiles_text _ _ _ _ T [] _ (Forall_nil _) S). }
  split; [exact Et|].
  intros Hall. rewrite Et, Hall. unfold len. rewrite Nat2Z.id, firstn_all. reflexivity.
Qed.

Lemma emitted_text_is_consumed_input_minus_ignored_witness :
  let ops := [ONext; ONext; OBackup; OEmit 2; ONext; OIgnore; ONext; ONext; OBackup;
              OEmit 3] in
  (len (str "a bc") <= Int.max /\ consistent false ops = true) /\
  exists log l,
    run 0 ops [] (Lexer.New (str "t") (str "a bc")) = Ret log l /\
    Lexer.tokens l = emitted log /\
    0 <= Lexer.base l <= Lexer.pos l /\ Lexer.pos l <= len (str "a bc") /\
    tiles (str "a bc") 0 (Lexer.base l) log /\
    List.concat (map Token.Value (Lexer.tokens l))
      = remove_spans (firstn (Z.to_nat (Lexer.base l)) (str "a bc")) (ignored log) /\
    (Lexer.base l = len (str "a bc") ->
     List.concat (map Token.Value (Lexer.tokens l))
       = remove_spans (str "a bc") (ignored log)).
Proof.
  intros ops.
  assert (H1 : len (str "a bc") <= Int.max) by (vm_compute; discriminate).
  assert (H2 : consistent false ops = true) by reflexivity.
  split; [exact (conj H1 H2)|].
  exact (emitted_text_is_consumed_input_minus_ignored 0 (str "t") (str "a bc") ops H1 H2).
Defined.

(** * Further properties of the scanner *)

(** ** Reading runes *)

Lemma slice_from_skipn s lo :
  0 <= lo <= len s -> slice_from s lo = Some (skipn (Z.to_nat lo) s).
Proof.
  intros H. unfold slice_from.
  destruct (slice_ok s lo (len s)) as [v Hv]; try lia.
  rewrite Hv. apply slice_Some in Hv. destruct Hv as (_ & _ & _ & ->).
  f_equal. apply firstn_all2. rewrite length_skipn. unfold len. lia.
Qed.

Lemma skipn_nth_error {A} (l : list A) :
  forall n x, nth_error l n = Some x -> exists rest, skipn n l = x :: rest.
Proof.
  induction l as [|a l IH]; intros [|n] x H; simpl in H; try discriminate.
  - injection H as <-. exists l. reflexivity.
  - simpl. apply IH. exact H.
Qed.

Lemma byte_at_Some s i b :
  byte_at s i = Some b ->
  0 <= i < len s /\ exists rest, skipn (Z.to_nat i) s = b :: rest.
Proof.
  unfold byte_at. destruct (i <? 0) eqn:E; [discriminate|].
  apply Z.ltb_ge in E. intros H. split.
  - assert (Z.to_nat i < List.length s)%nat by (apply nth_error_Some; congruence).
    unfold len. lia.
  - apply skipn_nth_error. exact H.
Qed.

(** [Next] tells the end of the input from a rune: from a cursor at or after
    the start of the input it returns, it returns the sentinel exactly when
    the cursor is at or past the end, and otherwise it moves the cursor by the
    width it records, one to four bytes, without leaving the input. *)
Theorem Next_returns_EOF_only_at_end (l : Lexer.t) :
  wf l -> 0 <= Lexer.pos l ->
  exists r l',
    Lexer.Next l = Ret r l' /\
    (r = EOF <-> len (Lexer.input l) <= Lexer.pos l) /\
    Lexer.pos l' = Lexer.pos l + Lexer.width l' /\
    (r = EOF -> Lexer.width l' = 0) /\
    (r <> EOF -> 1 <= Lexer.width l' <= 4 /\ Lexer.pos l' <= len (Lexer.input l)) /\
    Lexer.base l' = Lexer.base l /\ Lexer.tokens l' = Lexer.tokens l /\
    Lexer.input l' = Lexer.input l.
Proof.
  intros W Hp.
  destruct (Z_le_gt_dec (len (Lexer.input l)) (Lexer.pos l)) as [Hend|Hin].
  - exists EOF, (Lexer.set_width 0 l). rewrite (Next_at_end l Hend). simpl.
    repeat split; intros; auto; try lia; try congruence.
  - destruct (Next_inside l W) as (r & w & HN & Hw & Hle & Hr); [lia|].
    exists r, (Lexer.set_pos (Lexer.pos l + w) (Lexer.set_width w l)).
    rewrite HN. simpl. repeat split; intros; auto; try lia; try congruence.
Qed.

Lemma Next_returns_EOF_only_at_end_witness :
  let l := Lexer.set_pos 1 (Lexer.New (str "t") (str "ab")) in
  (wf l /\ 0 <= Lexer.pos l) /\
  exists r l',
    Lexer.Next l = Ret r l' /\
    (r = EOF <-> len (Lexer.input l) <= Lexer.pos l) /\
    Lexer.pos l' = Lexer.pos l + Lexer.width l' /\
    (r = EOF -> Lexer.width l' = 0) /\
    (r <> EOF -> 1 <= Lexer.width l' <= 4 /\ Lexer.pos l' <= len (Lexer.input l)) /\
    Lexer.base l' = Lexer.base l /\ Lexer.tokens l' = Lexer.tokens l /\
    Lexer.input l' = Lexer.input l.
Proof.
  intros l.
  assert (W : wf l) by (vm_compute; intuition discriminate).
  assert (H : 0 <= Lexer.pos l) by (vm_compute; discriminate).
  split; [exact (conj W H)|].
  exact (Next_returns_EOF_only_at_end l W H).
Defined.

Lemma DecodeRune_ascii b rest :
  b2z b < 0x80 -> utf8.DecodeRuneInString (b :: rest) = (b2z b, 1).
Proof.
  intros H. unfold utf8.DecodeRuneInString, utf8.first.
  apply Z.ltb_lt in H. rewrite H.
  change (utf8.as_ <=? utf8.as_) with true. cbv iota.
  change (Z.testbit utf8.as_ 0) with false. cbv iota zeta.
  change (Z.lnot 0) with (-1).
  rewrite Z.land_m1_r, Z.land_0_r, Z.lor_0_r. reflexivity.
Qed.

(** On an ASCII byte [Next] returns that byte and moves the cursor by one. *)
Theorem Next_on_ascii_byte (l : Lexer.t) (b : byte) :
  wf l ->
  byte_at (Lexer.input l) (Lexer.pos l) = Some b ->
  b2z b < 0x80 ->
  Lexer.Next l = Ret (b2z b) (Lexer.set_pos (Lexer.pos l + 1) (Lexer.set_width 1 l)).
Proof.
  intros W Hb Ha. pose proof W as (_ & _ & Hp & _ & Hlen).
  destruct (byte_at_Some _ _ _ Hb) as (Hin & rest & Hs).
  unfold Lexer.Next.
  destruct (len (Lexer.input l) <=? Lexer.pos l) eqn:E.
  { apply Z.leb_le in E. lia. }
  rewrite slice_from_skipn by lia. rewrite Hs, (DecodeRune_ascii b rest Ha).
  simpl. unfold Int.add. rewrite wrap_small; [reflexivity|].
  unfold Int.ok, Int.min, Int.max in *. lia.
Qed.

Lemma Next_on_ascii_byte_witness :
  let l := Lexer.set_pos 1 (Lexer.New (str "t") (str "ab")) in
  (wf l /\ byte_at (Lexer.input l) (Lexer.pos l) = Some "b"%byte /\
   b2z "b"%byte < 0x80) /\
  Lexer.Next l = Ret 98 (Lexer.set_pos 2 (Lexer.set_width 1 l)).
Proof.
  intros l.
  assert (W : wf l) by (vm_compute; intuition discriminate).
  assert (H1 : byte_at (Lexer.input l) (Lexer.pos l) = Some "b"%byte) by reflexivity.
  assert (H2 : b2z "b"%byte < 0x80) by reflexivity.
  split; [exact (conj W (conj H1 H2))|].
  exact (Next_on_ascii_byte l "b"%byte W H1 H2).
Defined.

(** ** [Consume] and [Accept] *)

Lemma HasPrefix_firstn (s p : gostring) :
  strings.HasPrefix s p = true <-> firstn (List.length p) s = p.
Proof.
  revert s. induction p as [|c p IH]; intros s; simpl.
  - destruct s; split; reflexivity.
  - destruct s as [|b s]; simpl; [split; discriminate|].
    rewrite andb_true_iff, IH. split.
    + intros [E ->]. apply byte_dec_bl in E. subst. reflexivity.
    + intros H. injection H as -> H. split; [apply byte_dec_lb; reflexivity | exact H].
Qed.

Lemma slice_is s lo v :
  0 <= lo <= len s ->
  (slice s lo (lo + len v) = Some v <-> firstn (List.length v) (skipn (Z.to_nat lo) s) = v).
Proof.
  intros Hlo. pose proof (len_nonneg v) as Hv. split.
  - intros H. apply slice_Some in H. destruct H as (_ & _ & _ & E).
    replace (Z.to_nat (lo + len v - lo)) with (List.length v) in E
      by (unfold len; lia).
    symmetry. exact E.
  - intros H.
    assert (Hle : lo + len v <= len s).
    { apply (f_equal (@List.length byte)) in H.
      rewrite length_firstn, length_skipn in H. unfold len in *. lia. }
    destruct (slice_ok s lo (lo + len v)) as [v' Hv']; try lia.
    rewrite Hv'. apply slice_Some in Hv'. destruct Hv' as (_ & _ & _ & ->).
    replace (Z.to_nat (lo + len v - lo)) with (List.length v) by (unfold len; lia).
    f_equal. exact H.
Qed.

(** [Consume s] returns true and moves the cursor just past [s] exactly when
    the input holds [s] at the cursor; otherwise it returns false and changes
    nothing, so nothing is consumed in part. *)
Theorem Consume_all_or_nothing (l : Lexer.t) (s : gostring) :
  wf l -> 0 <= Lexer.pos l <= len (Lexer.input l) ->
  (slice (Lexer.input l) (Lexer.pos l) (Lexer.pos l + len s) = Some s /\
   Lexer.Consume s l = Ret true (Lexer.set_pos (Lexer.pos l + len s) l)) \/
  (slice (Lexer.input l) (Lexer.pos l) (Lexer.pos l + len s) <> Some s /\
   Lexer.Consume s l = Ret false l).
Proof.
  intros W Hin. pose proof W as (_ & _ & Hp & _ & Hlen).
  unfold Lexer.Consume, Lexer.HasPrefix. rewrite slice_from_skipn by lia.
  destruct (strings.HasPrefix (skipn (Z.to_nat (Lexer.pos l)) (Lexer.input l)) s) eqn:E.
  - left. apply HasPrefix_firstn in E. apply (slice_is _ _ _ Hin) in E.
    split; [exact E|]. apply slice_Some in E.
    unfold Int.add. rewrite wrap_small; [reflexivity|].
    unfold Int.ok, Int.min, Int.max in *. lia.
  - right. split; [|reflexivity]. intros H.
    apply (slice_is _ _ _ Hin) in H. apply HasPrefix_firstn in H. congruence.
Qed.

Lemma Consume_all_or_nothing_witness :
  let l := Lexer.set_pos 1 (Lexer.New (str "t") (str "xabcdef")) in
  (wf l /\ 0 <= Lexer.pos l <= len (Lexer.input l)) /\
  Lexer.Consume (str "abc") l = Ret true (Lexer.set_pos 4 l) /\
  Lexer.Consume (str "abX") l = Ret false l.
Proof.
  intros l.
  assert (W : wf l) by (vm_compute; intuition discriminate).
  assert (H : 0 <= Lexer.pos l <= len (Lexer.input l))
    by (vm_compute; split; discriminate).
  split; [exact (conj W H)|]. split.
  - destruct (Consume_all_or_nothing l (str "abc") W H) as [[_ E] | [N _]].
    + exact E.
    + exfalso. apply N. reflexivity.
  - destruct (Consume_all_or_nothing l (str "abX") W H) as [[E _] | [_ E]].
    + vm_compute in E. discriminate.
    + exact E.
Defined.

(** From a cursor within or after the input [Backup] undoes [Next]: only the
    recorded width remains. *)
Lemma Next_then_Backup (l : Lexer.t) :
  wf l -> 0 <= Lexer.pos l ->
  exists r l1,
    Lexer.Next l = Ret r l1 /\
    Lexer.Backup l1 = Ret tt (Lexer.set_width (Lexer.width l1) l).
Proof.
  intros W Hp0. pose proof W as (_ & _ & Hp & _ & _).
  destruct (Z_le_gt_dec (len (Lexer.input l)) (Lexer.pos l)) as [Hend|Hin].
  - exists EOF, (Lexer.set_width 0 l). rewrite (Next_at_end l Hend).
    split; [reflexivity|]. unfold Lexer.Backup, Int.sub. simpl.
    rewrite Z.sub_0_r, (wrap_small _ Hp). destruct l; reflexivity.
  - destruct (Next_inside l W) as (r & w & HN & Hw & _); [lia|].
    exists r, (Lexer.set_pos (Lexer.pos l + w) (Lexer.set_width w l)).
    split; [exact HN|]. unfold Lexer.Backup, Int.sub. simpl.
    replace (Lexer.pos l + w - w) with (Lexer.pos l) by lia.
    rewrite (wrap_small _ Hp). destruct l; reflexivity.
Qed.

(** [Accept valid] consumes the next rune exactly when [valid] contains it:
    then it returns true and the state is that after [Next]; otherwise it
    returns false with the cursor where it was.  At the end of the input it
    returns false whatever [valid] is. *)
Theorem Accept_consumes_iff_member (l : Lexer.t) (valid : gostring) :
  wf l -> 0 <= Lexer.pos l ->
  exists r l1,
    Lexer.Next l = Ret r l1 /\
    (0 <= strings.IndexRune valid r -> Lexer.Accept valid l = Ret true l1) /\
    (strings.IndexRune valid r < 0 ->
     Lexer.Accept valid l = Ret false (Lexer.set_width (Lexer.width l1) l)) /\
    (len (Lexer.input l) <= Lexer.pos l ->
     Lexer.Accept valid l = Ret false (Lexer.set_width 0 l)).
Proof.
  intros W Hp.
  destruct (Next_then_Backup l W Hp) as (r & l1 & HN & HB).
  exists r, l1. split; [exact HN|].
  unfold Lexer.Accept, bind. rewrite HN. split; [|split].
  - intros H. apply Z.leb_le in H. rewrite H. reflexivity.
  - intros H. apply Z.leb_gt in H. rewrite H. unfold bind. rewrite HB. reflexivity.
  - intros Hend. rewrite (Next_at_end l Hend) in HN. injection HN as <- <-.
    rewrite IndexRune_EOF. change (0 <=? -1) with false. cbv beta iota.
    rewrite HB. reflexivity.
Qed.

Lemma Accept_consumes_iff_member_witness :
  let l := Lexer.New (str "t") (str "ab") in
  (wf l /\ 0 <= Lexer.pos l) /\
  Lexer.Accept (str "a") l = Ret true (Lexer.set_pos 1 (Lexer.set_width 1 l)) /\
  Lexer.Accept (str "x") l = Ret false (Lexer.set_width 1 l).
Proof.
  intros l.
  assert (W : wf l) by (vm_compute; intuition discriminate).
  assert (H : 0 <= Lexer.pos l) by (vm_compute; discriminate).
  split; [exact (conj W H)|]. split.
  - destruct (Accept_consumes_iff_member l (str "a") W H) as (r & l1 & HN & Ht & _).
    vm_compute in HN. injection HN as <- <-. apply Ht. vm_compute. discriminate.
  - destruct (Accept_consumes_iff_member l (str "x") W H) as (r & l1 & HN & _ & Hf & _).
    vm_compute in HN. injection HN as <- <-. apply Hf. reflexivity.
Defined.

(** ** The loops [AcceptFuncRun] and [AcceptRun] *)

Lemma Next_set_width w l : Lexer.Next (Lexer.set_width w l) = Lexer.Next l.
Proof.
  unfold Lexer.Next. simpl.
  destruct (len (Lexer.input l) <=? Lexer.pos l); [reflexivity|].
  destruct (slice_from (Lexer.input l) (Lexer.pos l)) as [rest|]; [|reflexivity].
  destruct (utf8.DecodeRuneInString rest). reflexivity.
Qed.

Lemma rune_at_frame p w l a :
  rune_at (Lexer.set_pos p (Lexer.set_width w l)) a = rune_at l a.
Proof.
  unfold rune_at.
  change (Lexer.set_pos a (Lexer.set_pos p (Lexer.set_width w l)))
    with (Lexer.set_width w (Lexer.set_pos a l)).
  rewrite Next_set_width. reflexivity.
Qed.

Lemma run_of_frame f p w l a b :
  run_of f (Lexer.set_pos p (Lexer.set_width w l)) a b -> run_of f l a b.
Proof.
  induction 1 as [a | a r a' b Hr Hne Hf _ IH].
  - constructor.
  - rewrite rune_at_frame in Hr. econstructor; eassumption.
Qed.

Lemma rune_at_cursor l r l1 :
  Lexer.Next l = Ret r l1 -> rune_at l (Lexer.pos l) = Some (r, Lexer.pos l1).
Proof. intros H. unfold rune_at. rewrite set_pos_same, H. reflexivity. Qed.

Lemma AcceptFuncRun_loop_step fuel f n l :
  Lexer.AcceptFuncRun_loop (S fuel) f n l =
  match Lexer.Next l with
  | Ret r l1 =>
    if f r
    then Lexer.AcceptFuncRun_loop fuel f (Int.add n (Lexer.width l1)) l1
    else Ret n (Lexer.set_pos (Int.sub (Lexer.pos l1) (Lexer.width l1)) l1)
  | Panic => Panic
  | Block => Block
  | Fuel => Fuel
  end.
Proof.
  simpl. unfold bind. destruct (Lexer.Next l); try reflexivity.
  destruct (f a); reflexivity.
Qed.

(** The loop, with the count [n0] it has reached: given fuel for the bytes
    that are left, it returns, having consumed a run of runes that satisfy
    [f] and standing before one that does not. *)
Lemma AcceptFuncRun_loop_returns f :
  f EOF = false ->
  forall fuel n0 l,
  wf l -> 0 <= n0 <= Lexer.pos l ->
  (Z.to_nat (len (Lexer.input l) - Lexer.pos l) < fuel)%nat ->
  exists n l',
    Lexer.AcceptFuncRun_loop fuel f n0 l = Ret n l' /\
    n = n0 + (Lexer.pos l' - Lexer.pos l) /\
    Lexer.pos l <= Lexer.pos l' /\
    run_of f l (Lexer.pos l) (Lexer.pos l') /\
    (exists r a, rune_at l (Lexer.pos l') = Some (r, a) /\ f r = false) /\
    l' = Lexer.set_pos (Lexer.pos l') (Lexer.set_width (Lexer.width l') l).
Proof.
  intros HfE. induction fuel as [|fuel IH]; intros n0 l W Hn Hfuel; [lia|].
  pose proof W as (Hw & Hb & Hp & Hlp & Hlen).
  rewrite AcceptFuncRun_loop_step.
  destruct (Z_le_gt_dec (len (Lexer.input l)) (Lexer.pos l)) as [Hend|Hin].
  - pose proof (Next_at_end l Hend) as HN. rewrite HN, HfE.
    exists n0, (Lexer.set_width 0 l). simpl. unfold Int.sub.
    rewrite Z.sub_0_r, (wrap_small _ Hp).
    split; [f_equal; destruct l; reflexivity|].
    split; [lia|]. split; [lia|]. split; [constructor|]. split.
    + exists EOF, (Lexer.pos l). split; [|exact HfE].
      apply (rune_at_cursor _ _ _ HN).
    + destruct l; reflexivity.
  - destruct (Next_inside l W) as (r & w & HN & Hw' & Hle & Hr); [lia|].
    rewrite HN. destruct (f r) eqn:Hfr.
    + set (l1 := Lexer.set_pos (Lexer.pos l + w) (Lexer.set_width w l)) in *.
      assert (W1 : wf l1).
      { apply wf_set_pos; [apply wf_set_width; auto|]; apply ok_between;
          unfold Int.max in *; lia. }
      assert (E : Int.add n0 (Lexer.width l1) = n0 + w).
      { unfold Int.add. simpl. apply wrap_small. apply ok_between.
        unfold Int.max in *. lia. }
      rewrite E.
      destruct (IH (n0 + w) l1 W1) as (n & l' & HR & Hn' & Hle' & Hrun & Hstop & Hl');
        [simpl; lia | simpl; lia |].
      simpl in Hn', Hle'. exists n, l'. split; [exact HR|].
      split; [lia|]. split; [lia|]. split; [|split].
      * apply (run_of_cons f l (Lexer.pos l) r (Lexer.pos l + w)); auto.
        -- apply (rune_at_cursor _ _ _ HN).
        -- apply (run_of_frame f _ _ _ _ _ Hrun).
      * destruct Hstop as (r' & a & Hr' & Hf'). exists r', a.
        unfold l1 in Hr'. rewrite rune_at_frame in Hr'. auto.
      * rewrite Hl' at 1. destruct l; reflexivity.
    + exists n0, (Lexer.set_width w l). simpl. unfold Int.sub.
      replace (Lexer.pos l + w - w) with (Lexer.pos l) by lia.
      rewrite (wrap_small _ Hp).
      split; [f_equal; destruct l; reflexivity|].
      split; [lia|]. split; [lia|]. split; [constructor|]. split.
      * exists r, (Lexer.pos l + w). split; [|exact Hfr].
        apply (rune_at_cursor _ _ _ HN).
      * destruct l; reflexivity.
Qed.

Lemma restore l : Lexer.set_pos (Lexer.pos l) (Lexer.set_width (Lexer.width l) l) = l.
Proof. destruct l; reflexivity. Qed.

(** What [Next] does at offset [a], from what [rune_at] says. *)
Lemma Next_at l0 a w r c :
  wf l0 -> rune_at l0 a = Some (r, c) ->
  Lexer.Next (Lexer.set_pos a (Lexer.set_width w l0))
    = Ret r (Lexer.set_pos c (Lexer.set_width (c - a) l0)) /\
  (r <> EOF -> 0 <= a < c /\ c <= len (Lexer.input l0)) /\
  (r = EOF -> c = a).
Proof.
  intros W H. unfold rune_at in H.
  change (Lexer.set_pos a (Lexer.set_width w l0))
    with (Lexer.set_width w (Lexer.set_pos a l0)).
  rewrite Next_set_width.
  pose proof W as (Hw & Hb & Hp & Hlp & Hlen).
  destruct (Z_le_gt_dec (len (Lexer.input l0)) a) as [Hend|Hin].
  - rewrite (Next_at_end (Lexer.set_pos a l0)) in * by exact Hend.
    injection H as <- <-. simpl. rewrite Z.sub_diag.
    split; [reflexivity|]. split; [congruence | reflexivity].
  - destruct (Z_lt_le_dec a 0) as [Hneg|Hnn].
    { rewrite (Next_before_start (Lexer.set_pos a l0)) in H by exact Hneg.
      discriminate. }
    destruct (Next_inside (Lexer.set_pos a l0)) as (r' & w' & HN & Hw' & Hle & Hr).
    { apply wf_set_pos; auto. apply ok_between. simpl. lia. }
    { simpl. lia. }
    rewrite HN in *. simpl in *. injection H as <- <-.
    replace (a + w' - a) with w' by lia.
    split; [reflexivity|]. split; [intros _; lia | congruence].
Qed.

Lemma run_of_le f l0 a b : wf l0 -> run_of f l0 a b -> a <= b.
Proof.
  intros W. induction 1 as [a | a r a' b Hr Hne Hf _ IH]; [lia|].
  destruct (Next_at l0 a 0 r a' W Hr) as (_ & H & _). specialize (H Hne). lia.
Qed.

(** Whatever [f] says of the sentinel, the loop stops before the first rune
    that [f] rejects. *)
Lemma AcceptFuncRun_loop_stops f l0 :
  wf l0 ->
  forall a b, run_of f l0 a b ->
  forall r c, rune_at l0 b = Some (r, c) -> f r = false ->
  forall fuel n0 w,
  Int.ok a -> 0 <= n0 <= a -> (Z.to_nat (b - a) < fuel)%nat ->
  Lexer.AcceptFuncRun_loop fuel f n0 (Lexer.set_pos a (Lexer.set_width w l0))
    = Ret (n0 + (b - a)) (Lexer.set_pos b (Lexer.set_width (c - b) l0)).
Proof.
  intros W a b Hrun. pose proof W as (_ & _ & _ & _ & Hlen).
  induction Hrun as [a | a r1 a' b Hr1 Hne Hf1 Hrun IH];
    intros r c Hr Hf fuel n0 w Ha Hn Hfuel;
    (destruct fuel as [|fuel]; [lia|]); rewrite AcceptFuncRun_loop_step.
  - destruct (Next_at l0 a w r c W Hr) as (HN & _). rewrite HN, Hf. simpl.
    unfold Int.sub. replace (c - (c - a)) with a by lia. rewrite (wrap_small _ Ha).
    f_equal. lia.
  - destruct (Next_at l0 a w r1 a' W Hr1) as (HN & Hin & _). specialize (Hin Hne).
    pose proof (run_of_le _ _ _ _ W Hrun) as Hle.
    rewrite HN, Hf1. simpl.
    assert (E : Int.add n0 (a' - a) = n0 + (a' - a)).
    { unfold Int.add. apply wrap_small. apply ok_between. unfold Int.max in *. lia. }
    rewrite E, (IH r c Hr Hf fuel (n0 + (a' - a)) (a' - a)).
    + f_equal. lia.
    + apply ok_between. unfold Int.max in *. lia.
    + lia.
    + lia.
Qed.

Lemma AcceptFuncRun_loop_at_end f :
  f EOF = true ->
  forall fuel n l,
  len (Lexer.input l) <= Lexer.pos l ->
  Lexer.AcceptFuncRun_loop fuel f n l = Fuel.
Proof.
  intros HfE. induction fuel as [|fuel IH]; intros n l H; [reflexivity|].
  rewrite AcceptFuncRun_loop_step, (Next_at_end l H), HfE. apply IH. exact H.
Qed.

(** If [f] accepts the sentinel and every rune up to the end of the input,
    the loop goes on for ever. *)
Lemma AcceptFuncRun_loop_diverges f l0 :
  wf l0 -> f EOF = true ->
  forall a b, run_of f l0 a b -> len (Lexer.input l0) <= b ->
  forall fuel n0 w,
  Lexer.AcceptFuncRun_loop fuel f n0 (Lexer.set_pos a (Lexer.set_width w l0)) = Fuel.
Proof.
  intros W HfE a b Hrun.
  induction Hrun as [a | a r1 a' b Hr1 Hne Hf1 Hrun IH]; intros Hend fuel n0 w.
  - apply AcceptFuncRun_loop_at_end; [exact HfE | exact Hend].
  - destruct fuel as [|fuel]; [reflexivity|]. rewrite AcceptFuncRun_loop_step.
    destruct (Next_at l0 a w r1 a' W Hr1) as (HN & _). rewrite HN, Hf1.
    apply IH. exact Hend.
Qed.

Lemma AcceptRun_loop_as_AcceptFuncRun_loop valid :
  forall fuel n l,
  Lexer.AcceptRun_loop fuel valid n l
    = Lexer.AcceptFuncRun_loop fuel (fun r => 0 <=? strings.IndexRune valid r) n l.
Proof.
  induction fuel as [|fuel IH]; intros n l; [reflexivity|].
  rewrite AcceptFuncRun_loop_step. simpl. unfold bind.
  destruct (Lexer.Next l) as [r l1| | |]; try reflexivity.
  destruct (0 <=? strings.IndexRune valid r); [apply IH | reflexivity].
Qed.

Lemma AcceptButRun_loop_as_AcceptFuncRun_loop invalid :
  forall fuel n l,
  Lexer.AcceptButRun_loop fuel invalid n l
    = Lexer.AcceptFuncRun_loop fuel (fun r => strings.IndexRune invalid r <? 0) n l.
Proof.
  induction fuel as [|fuel IH]; intros n l; [reflexivity|].
  rewrite AcceptFuncRun_loop_step, AcceptButRun_loop_step.
  destruct (Lexer.Next l) as [r l1| | |]; try reflexivity.
  destruct (strings.IndexRune invalid r <? 0); [apply IH | reflexivity].
Qed.

(** [AcceptFuncRun f] with a predicate that rejects the sentinel always
    returns, given fuel for the bytes that are left: it has consumed a run of
    runes that satisfy [f], as long as can be (the next rune, or the end of
    the input, is rejected), it returns the number of bytes consumed, and it
    has changed nothing but the cursor and the recorded width. *)
Theorem AcceptFuncRun_consumes_maximal_run (f : Z -> bool) (fuel : nat) (l : Lexer.t) :
  wf l -> 0 <= Lexer.pos l -> f EOF = false ->
  (Z.to_nat (len (Lexer.input l) - Lexer.pos l) < fuel)%nat ->
  exists n l',
    Lexer.AcceptFuncRun fuel f l = Ret n l' /\
    0 <= n /\ Lexer.pos l' = Lexer.pos l + n /\
    run_of f l (Lexer.pos l) (Lexer.pos l') /\
    (exists r a, rune_at l (Lexer.pos l') = Some (r, a) /\ f r = false) /\
    l' = Lexer.set_pos (Lexer.pos l') (Lexer.set_width (Lexer.width l') l).
Proof.
  intros W Hp HfE Hfuel.
  destruct (AcceptFuncRun_loop_returns f HfE fuel 0 l W) as (n & l' & HR & Hn & Hle & H);
    [lia | exact Hfuel |].
  exists n, l'. split; [exact HR|]. split; [lia|]. split; [lia|]. exact H.
Qed.

Lemma AcceptFuncRun_consumes_maximal_run_witness :
  let l := Lexer.New (str "t") (str "  x") in
  (wf l /\ 0 <= Lexer.pos l /\ IsSpace EOF = false /\
   (Z.to_nat (len (Lexer.input l) - Lexer.pos l) < 4)%nat) /\
  exists n l',
    Lexer.AcceptFuncRun 4 IsSpace l = Ret n l' /\
    0 <= n /\ Lexer.pos l' = Lexer.pos l + n /\
    run_of IsSpace l (Lexer.pos l) (Lexer.pos l') /\
    (exists r a, rune_at l (Lexer.pos l') = Some (r, a) /\ IsSpace r = false) /\
    l' = Lexer.set_pos (Lexer.pos l') (Lexer.set_width (Lexer.width l') l).
Proof.
  intros l.
  assert (W : wf l) by (vm_compute; intuition discriminate).
  assert (H1 : 0 <= Lexer.pos l) by (vm_compute; discriminate).
  assert (H2 : IsSpace EOF = false) by reflexivity.
  assert (H3 : (Z.to_nat (len (Lexer.input l) - Lexer.pos l) < 4)%nat)
    by (vm_compute; lia).
  split; [exact (conj W (conj H1 (conj H2 H3)))|].
  exact (AcceptFuncRun_consumes_maximal_run IsSpace 4 l W H1 H2 H3).
Defined.

(** [AcceptRun valid] always returns, given fuel for the bytes that are left:
    it has consumed a run of runes of [valid], as long as can be, and returns
    the number of bytes consumed.  The end of the input stops it. *)
Theorem AcceptRun_consumes_maximal_run (valid : gostring) (fuel : nat) (l : Lexer.t) :
  wf l -> 0 <= Lexer.pos l ->
  (Z.to_nat (len (Lexer.input l) - Lexer.pos l) < fuel)%nat ->
  exists n l',
    Lexer.AcceptRun fuel valid l = Ret n l' /\
    0 <= n /\ Lexer.pos l' = Lexer.pos l + n /\
    run_of (fun r => 0 <=? strings.IndexRune valid r) l (Lexer.pos l) (Lexer.pos l') /\
    (exists r a, rune_at l (Lexer.pos l') = Some (r, a) /\ strings.IndexRune valid r < 0) /\
    l' = Lexer.set_pos (Lexer.pos l') (Lexer.set_width (Lexer.width l') l).
Proof.
  intros W Hp Hfuel. unfold Lexer.AcceptRun.
  rewrite AcceptRun_loop_as_AcceptFuncRun_loop.
  destruct (AcceptFuncRun_loop_returns (fun r => 0 <=? strings.IndexRune valid r)
              eq_refl fuel 0 l W)
    as (n & l' & HR & Hn & Hle & Hrun & (r & a & Hr & Hf) & Hl');
    [lia | exact Hfuel |].
  exists n, l'. split; [exact HR|]. split; [lia|]. split; [lia|].
  split; [exact Hrun|]. split; [|exact Hl'].
  exists r, a. split; [exact Hr|]. apply Z.leb_gt. exact Hf.
Qed.

Lemma AcceptRun_consumes_maximal_run_witness :
  let l := Lexer.New (str "t") (str "aab") in
  (wf l /\ 0 <= Lexer.pos l /\
   (Z.to_nat (len (Lexer.input l) - Lexer.pos l) < 4)%nat) /\
  exists n l',
    Lexer.AcceptRun 4 (str "a") l = Ret n l' /\
    0 <= n /\ Lexer.pos l' = Lexer.pos l + n /\
    run_of (fun r => 0 <=? strings.IndexRune (str "a") r) l (Lexer.pos l) (Lexer.pos l') /\
    (exists r a, rune_at l (Lexer.pos l') = Some (r, a) /\
                 strings.IndexRune (str "a") r < 0) /\
    l' = Lexer.set_pos (Lexer.pos l') (Lexer.set_width (Lexer.width l') l).
Proof.
  intros l.
  assert (W : wf l) by (vm_compute; intuition discriminate).
  assert (H1 : 0 <= Lexer.pos l) by (vm_compute; discriminate).
  assert (H3 : (Z.to_nat (len (Lexer.input l) - Lexer.pos l) < 4)%nat)
    by (vm_compute; lia).
  split; [exact (conj W (conj H1 H3))|].
  exact (AcceptRun_consumes_maximal_run (str "a") 4 l W H1 H3).
Defined.

(** [AcceptFuncRun f] with a predicate that accepts the sentinel never
    returns when every rune from the cursor to the end of the input satisfies
    [f]: at the end of the input [Next] keeps returning the sentinel. *)
Theorem AcceptFuncRun_never_returns_when_EOF_accepted (f : Z -> bool) (l : Lexer.t) (b : Z) :
  wf l -> f EOF = true ->
  run_of f l (Lexer.pos l) b -> len (Lexer.input l) <= b ->
  forall fuel, Lexer.AcceptFuncRun fuel f l = Fuel.
Proof.
  intros W HfE Hrun Hend fuel. unfold Lexer.AcceptFuncRun.
  rewrite <- (restore l) at 1.
  apply (AcceptFuncRun_loop_diverges f l W HfE _ b Hrun Hend).
Qed.

Lemma AcceptFuncRun_never_returns_when_EOF_accepted_witness :
  let l := Lexer.New (str "t") (str "ab") in
  let f := fun r => negb (IsEndline r) in
  (wf l /\ f EOF = true /\ run_of f l (Lexer.pos l) 2 /\ len (Lexer.input l) <= 2) /\
  forall fuel, Lexer.AcceptFuncRun fuel f l = Fuel.
Proof.
  intros l f.
  assert (W : wf l) by (vm_compute; intuition discriminate).
  assert (H1 : f EOF = true) by reflexivity.
  assert (H2 : run_of f l (Lexer.pos l) 2).
  { apply (run_of_cons f l 0 97 1 2); [reflexivity | discriminate | reflexivity |].
    apply (run_of_cons f l 1 98 2 2); [reflexivity | discriminate | reflexivity |].
    constructor. }
  assert (H3 : len (Lexer.input l) <= 2) by (vm_compute; discriminate).
  split; [exact (conj W (conj H1 (conj H2 H3)))|].
  exact (AcceptFuncRun_never_returns_when_EOF_accepted f l 2 W H1 H2 H3).
Defined.

(** [AcceptButRun invalid] stops before the first excluded rune: when the
    runes from the cursor to offset [b] are not in [invalid] and the rune at
    [b] is, it returns [b - pos] with the cursor at [b], given fuel for the
    bytes in between. *)
Theorem AcceptButRun_stops_at_first_excluded_rune
  (invalid : gostring) (fuel : nat) (l : Lexer.t) (b r c : Z) :
  wf l -> 0 <= Lexer.pos l ->
  run_of (fun r => strings.IndexRune invalid r <? 0) l (Lexer.pos l) b ->
  rune_at l b = Some (r, c) -> 0 <= strings.IndexRune invalid r ->
  (Z.to_nat (b - Lexer.pos l) < fuel)%nat ->
  Lexer.AcceptButRun fuel invalid l
    = Ret (b - Lexer.pos l) (Lexer.set_pos b (Lexer.set_width (c - b) l)).
Proof.
  intros W Hp Hrun Hr Hex Hfuel. unfold Lexer.AcceptButRun.
  rewrite AcceptButRun_loop_as_AcceptFuncRun_loop.
  rewrite <- (restore l) at 1.
  pose proof W as (_ & _ & Hpok & _).
  rewrite (AcceptFuncRun_loop_stops _ l W _ b Hrun r c Hr);
    [ reflexivity | apply Z.ltb_ge; exact Hex | exact Hpok | lia | exact Hfuel ].
Qed.

Lemma AcceptButRun_stops_at_first_excluded_rune_witness :
  let l := Lexer.New (str "t") (str "ab" ++ [x22] ++ str "c") in
  let f := fun r => strings.IndexRune Quote r <? 0 in
  (wf l /\ 0 <= Lexer.pos l /\ run_of f l (Lexer.pos l) 2 /\
   rune_at l 2 = Some (34, 3) /\ 0 <= strings.IndexRune Quote 34 /\
   (Z.to_nat (2 - Lexer.pos l) < 3)%nat) /\
  Lexer.AcceptButRun 3 Quote l = Ret 2 (Lexer.set_pos 2 (Lexer.set_width 1 l)).
Proof.
  intros l f.
  assert (W : wf l) by (vm_compute; intuition discriminate).
  assert (H1 : 0 <= Lexer.pos l) by (vm_compute; discriminate).
  assert (H2 : run_of f l (Lexer.pos l) 2).
  { apply (run_of_cons f l 0 97 1 2); [reflexivity | discriminate | reflexivity |].
    apply (run_of_cons f l 1 98 2 2); [reflexivity | discriminate | reflexivity |].
    constructor. }
  assert (H3 : rune_at l 2 = Some (34, 3)) by reflexivity.
  assert (H4 : 0 <= strings.IndexRune Quote 34) by (vm_compute; discriminate).
  assert (H5 : (Z.to_nat (2 - Lexer.pos l) < 3)%nat) by (vm_compute; lia).
  split; [exact (conj W (conj H1 (conj H2 (conj H3 (conj H4 H5)))))|].
  exact (AcceptButRun_stops_at_first_excluded_rune Quote 3 l 2 34 3 W H1 H2 H3 H4 H5).
Defined.

(** [AcceptButRun invalid] never returns when no rune from the cursor to the
    end of the input is in [invalid]. *)
Theorem AcceptButRun_never_returns_without_excluded_rune
  (invalid : gostring) (l : Lexer.t) (b : Z) :
  wf l ->
  run_of (fun r => strings.IndexRune invalid r <? 0) l (Lexer.pos l) b ->
  len (Lexer.input l) <= b ->
  forall fuel, Lexer.AcceptButRun fuel invalid l = Fuel.
Proof.
  intros W Hrun Hend fuel. unfold Lexer.AcceptButRun.
  rewrite AcceptButRun_loop_as_AcceptFuncRun_loop.
  rewrite <- (restore l) at 1.
  apply (AcceptFuncRun_loop_diverges _ l W eq_refl _ b Hrun Hend).
Qed.

Lemma AcceptButRun_never_returns_without_excluded_rune_witness :
  let l := Lexer.set_pos 1 (Lexer.New (str "t") (str "xab")) in
  let f := fun r => strings.IndexRune (str "x") r <? 0 in
  (wf l /\ run_of f l (Lexer.pos l) 3 /\ len (Lexer.input l) <= 3) /\
  forall fuel, Lexer.AcceptButRun fuel (str "x") l = Fuel.
Proof.
  intros l f.
  assert (W : wf l) by (vm_compute; intuition discriminate).
  assert (H2 : run_of f l (Lexer.pos l) 3).
  { apply (run_of_cons f l 1 97 2 3); [reflexivity | discriminate | reflexivity |].
    apply (run_of_cons f l 2 98 3 3); [reflexivity | discriminate | reflexivity |].
    constructor. }
  assert (H3 : len (Lexer.input l) <= 3) by (vm_compute; discriminate).
  split; [exact (conj W (conj H2 H3))|].
  exact (AcceptButRun_never_returns_without_excluded_rune (str "x") l 3 W H2 H3).
Defined.

(** ** [Peek], [Inc] and [Dec] *)

(** [Peek] on the scanner can be repeated: a second [Peek] returns the same
    rune and leaves the state the first one left. *)
Theorem Lexer_Peek_idempotent (l : Lexer.t) :
  wf l -> 0 <= Lexer.pos l ->
  exists r l1,
    Lexer.Peek l = Ret r l1 /\ Lexer.Peek l1 = Ret r l1 /\
    Lexer.pos l1 = Lexer.pos l.
Proof.
  intros W Hp. destruct (Next_then_Backup l W Hp) as (r & l1 & HN & HB).
  exists r, (Lexer.set_width (Lexer.width l1) l). unfold Lexer.Peek, bind.
  rewrite Next_set_width, HN, HB. auto.
Qed.

Lemma Lexer_Peek_idempotent_witness :
  let l := Lexer.New (str "t") (str "ab") in
  (wf l /\ 0 <= Lexer.pos l) /\
  exists r l1,
    Lexer.Peek l = Ret r l1 /\ Lexer.Peek l1 = Ret r l1 /\
    Lexer.pos l1 = Lexer.pos l.
Proof.
  intros l.
  assert (W : wf l) by (vm_compute; intuition discriminate).
  assert (H : 0 <= Lexer.pos l) by (vm_compute; discriminate).
  split; [exact (conj W H)|].
  exact (Lexer_Peek_idempotent l W H).
Defined.

Lemma sub_add_cancel p n : Int.ok p -> Int.add (Int.sub p n) n = p.
Proof.
  intros H. unfold Int.sub, Int.add, Int.wrap.
  replace ((p - n + 2 ^ 63) mod 2 ^ 64 - 2 ^ 63 + n + 2 ^ 63)
    with ((p - n + 2 ^ 63) mod 2 ^ 64 + n) by lia.
  rewrite Zplus_mod_idemp_l.
  replace (p - n + 2 ^ 63 + n) with (p + 2 ^ 63) by lia.
  apply (wrap_small p H).
Qed.

(** [Dec n] undoes [Inc n] and [Inc n] undoes [Dec n], for every [n], also
    when the cursor overflows in between. *)
Theorem Inc_and_Dec_cancel (l : Lexer.t) (n : Z) :
  Int.ok (Lexer.pos l) ->
  (Lexer.Inc n ;;; Lexer.Dec n) l = Ret tt l /\
  (Lexer.Dec n ;;; Lexer.Inc n) l = Ret tt l.
Proof.
  intros H. unfold bind, Lexer.Inc, Lexer.Dec. simpl.
  rewrite (add_sub_cancel _ n H), (sub_add_cancel _ n H).
  rewrite !set_pos_set_pos, set_pos_same. auto.
Qed.

Lemma Inc_and_Dec_cancel_witness :
  let l := Lexer.set_pos 3 (Lexer.New (str "t") (str "abcd")) in
  Int.ok (Lexer.pos l) /\
  (Lexer.Inc Int.max ;;; Lexer.Dec Int.max) l = Ret tt l /\
  (Lexer.Dec Int.max ;;; Lexer.Inc Int.max) l = Ret tt l.
Proof.
  intros l.
  assert (H : Int.ok (Lexer.pos l)) by (vm_compute; intuition discriminate).
  split; [exact H|].
  exact (Inc_and_Dec_cancel l Int.max H).
Defined.

(** ** More on the lookahead reader *)

(** [Backup] on the reader un-reads: after [Next] has returned a token,
    pushing it back succeeds, the following [Next] returns it again and leaves
    the reader as it was after the first [Next], and a second push-back before
    that [Next] panics. *)
Theorem Reader_Backup_unreads (r r1 : Reader.t) (tok other : Token.t) :
  Reader.Next r = Ret tok r1 ->
  exists r2,
    Reader.Backup tok r1 = Ret tt r2 /\
    Reader.Peek r2 = Ret tok r2 /\
    Reader.Next r2 = Ret tok r1 /\
    Reader.Backup other r2 = Panic.
Proof.
  intros HN.
  destruct (Reader_Next_cases r) as [[_ E] | (tok' & r' & _ & E & Hb & _)];
    rewrite E in HN; [discriminate|].
  injection HN as <- <-.
  exists (Reader.mk (Reader.lex r') (Some tok')).
  destruct r' as [lx b]. simpl in Hb. subst b.
  unfold Reader.Backup, Reader.Peek, Reader.Next. simpl. auto.
Qed.

Lemma Reader_Backup_unreads_witness :
  let r := Reader.NewReader
             (Lexer.set_tokens [Token.mk 2 0 (str "a"); Token.mk 3 1 (str "b")]
                (Lexer.New (str "t") (str "ab"))) in
  exists r1,
    Reader.Next r = Ret (Token.mk 2 0 (str "a")) r1 /\
    exists r2,
      Reader.Backup (Token.mk 2 0 (str "a")) r1 = Ret tt r2 /\
      Reader.Peek r2 = Ret (Token.mk 2 0 (str "a")) r2 /\
      Reader.Next r2 = Ret (Token.mk 2 0 (str "a")) r1 /\
      Reader.Backup (Token.mk 3 1 (str "b")) r2 = Panic.
Proof.
  intros r. eexists. split; [reflexivity|].
  apply (Reader_Backup_unreads r _ (Token.mk 2 0 (str "a")) (Token.mk 3 1 (str "b"))).
  reflexivity.
Defined.

Lemma Reader_Peek_cases (r : Reader.t) :
  (Reader.upcoming r 0 = None /\ Reader.Peek r = Block) \/
  (exists tok r1,
     Reader.upcoming r 0 = Some tok /\
     Reader.Peek r = Ret tok r1 /\
     Reader.buf r1 = Some tok).
Proof.
  destruct r as [l b]. unfold Reader.upcoming, Reader.pending, Reader.Peek. simpl.
  destruct b as [tok|].
  - right. exists tok, (Reader.mk l (Some tok)). simpl. auto.
  - unfold bind, Reader.on_lex, Lexer.NextToken, bind, Lexer.recv. simpl.
    destruct (Lexer.tokens l) as [|tok q] eqn:Q; simpl.
    + destruct (Lexer.closed l) eqn:C; [|left; auto].
      right. eexists. eexists. split; [reflexivity|]. split; reflexivity.
    + right. eexists. eexists. split; [reflexivity|]. split; reflexivity.
Qed.

(** [Backup] on the reader panics exactly when a token is buffered, which
    is the case after every [Peek] and every [Backup] that returned. *)
Theorem Reader_Backup_panics_iff_buffered (r : Reader.t) (tok : Token.t) :
  (Reader.Backup tok r = Panic <-> Reader.buf r <> None) /\
  (forall t r1, Reader.Peek r = Ret t r1 -> Reader.Backup tok r1 = Panic) /\
  (forall t r1, Reader.Backup t r = Ret tt r1 -> Reader.Backup tok r1 = Panic).
Proof.
  split; [|split].
  - unfold Reader.Backup. destruct (Reader.buf r); split; intros H;
      try discriminate; try reflexivity; congruence.
  - intros t r1 HP.
    destruct (Reader_Peek_cases r) as [[_ E] | (t' & r' & _ & E & Hb)];
      rewrite E in HP; [discriminate|].
    injection HP as <- <-. unfold Reader.Backup. rewrite Hb. reflexivity.
  - intros t r1 HB. unfold Reader.Backup in *.
    destruct (Reader.buf r); [discriminate|]. injection HB as <-. reflexivity.
Qed.

(** [Peek] changes nothing that [Next] can see: [Peek] followed by [Next]
    returns the same token and leaves the same state as [Next] alone. *)
Theorem Reader_Peek_then_Next (r : Reader.t) :
  (Reader.Peek ;;; Reader.Next) r = Reader.Next r.
Proof.
  destruct r as [l b]. unfold bind, Reader.Peek, Reader.Next. simpl.
  destruct b as [tok|]; [reflexivity|].
  unfold bind, Reader.on_lex, Lexer.NextToken, bind, Lexer.recv. simpl.
  destruct (Lexer.tokens l) as [|tok q]; simpl; [|reflexivity].
  destruct (Lexer.closed l); reflexivity.
Qed.

Lemma Expect_loop_acc (types : list Z) :
  forall acc r,
  Reader.Expect_loop types acc r =
  match Reader.Expect_loop types [] r with
  | Ret (toks, ok) r' => Ret (acc ++ toks, ok) r'
  | Panic => Panic
  | Block => Block
  | Fuel => Fuel
  end.
Proof.
  induction types as [|ty types IH]; intros acc r; simpl.
  - unfold ret. rewrite app_nil_r. reflexivity.
  - unfold bind. destruct (Reader.Next r) as [arg r1| | |]; try reflexivity.
    destruct (negb (Token.Type_ arg =? ty)); simpl.
    + reflexivity.
    + rewrite (IH (acc ++ [arg])), (IH [arg]).
      destruct (Reader.Expect_loop types [] r1) as [[toks ok] r'| | |]; try reflexivity.
      rewrite <- app_assoc. reflexivity.
Qed.

(** [Expect] on a list of types put together from two is [Expect] on the
    first, then, if that succeeded, [Expect] on the second from where the first
    stopped, with the tokens of both; if the first fails, its result is the
    result and the second part is not read. *)
Theorem Expect_app (types1 types2 : list Z) (r : Reader.t) :
  Reader.Expect (types1 ++ types2) r =
  match Reader.Expect types1 r with
  | Ret (toks1, true) r1 =>
    match Reader.Expect types2 r1 with
    | Ret (toks2, ok) r2 => Ret (toks1 ++ toks2, ok) r2
    | Panic => Panic
    | Block => Block
    | Fuel => Fuel
    end
  | Ret (toks1, false) r1 => Ret (toks1, false) r1
  | Panic => Panic
  | Block => Block
  | Fuel => Fuel
  end.
Proof.
  unfold Reader.Expect. revert r.
  induction types1 as [|ty types1 IH]; intros r; simpl.
  - unfold ret.
    destruct (Reader.Expect_loop types2 [] r) as [[toks ok] r'| | |]; reflexivity.
  - unfold bind. destruct (Reader.Next r) as [arg r1| | |]; try reflexivity.
    destruct (negb (Token.Type_ arg =? ty)); simpl; [reflexivity|].
    rewrite (Expect_loop_acc (types1 ++ types2) [arg]), (Expect_loop_acc types1 [arg]).
    rewrite IH.
    destruct (Reader.Expect_loop types1 [] r1) as [[toks1 [|]] r2| | |]; try reflexivity.
    destruct (Reader.Expect_loop types2 [] r2) as [[toks2 ok] r3| | |]; reflexivity.
Qed.

(** ** The channel once the driver has finished *)

Lemma Run_returns_closed fuel :
  forall fn l l', Lexer.Run fuel fn l = Ret tt l' -> Lexer.closed l' = true.
Proof.
  induction fuel as [|fuel IH]; intros [sf|] l l' H; simpl in H.
  - discriminate.
  - destruct (Lexer.closed l); [discriminate|]. injection H as <-. reflexivity.
  - unfold bind in H.
    destruct (Lexer.apply sf l) as [next l1| | |]; try discriminate.
    exact (IH _ _ _ H).
  - destruct (Lexer.closed l); [discriminate|]. injection H as <-. reflexivity.
Qed.

(** When [Run] returns it has closed the channel.  From then on a send
    panics, so [Emit] and [Errorf] panic and so does the end of a second
    [Run]; [Drain] returns and leaves the queue empty; and [NextToken] never
    blocks: it hands out the tokens still queued,
    and after them the zero token, whose type is [TypeError] and whose
    position is 0, so that [LineNumber] and [ColumnNumber] then report 1. *)
Theorem Run_closes_the_channel (fuel : nat) (fn : option Lexer.StateFn) (l l' : Lexer.t) :
  Lexer.Run fuel fn l = Ret tt l' ->
  Lexer.closed l' = true /\
  (forall ty, Lexer.Emit ty l' = Panic) /\
  (forall msg, Lexer.Errorf msg l' = Panic) /\
  (forall fuel', Lexer.Run fuel' None l' = Panic) /\
  Lexer.Drain l' = Ret tt (Lexer.set_tokens [] l') /\
  (exists tok l'', Lexer.NextToken l' = Ret tok l'' /\ Lexer.closed l'' = true) /\
  (Lexer.tokens l' = [] ->
   Lexer.NextToken l' = Ret (Token.mk TypeError 0 []) (Lexer.set_lastPos 0 l') /\
   Lexer.LineNumber (Lexer.set_lastPos 0 l') = Some 1 /\
   Lexer.ColumnNumber (Lexer.set_lastPos 0 l') = Some 1).
Proof.
  intros H. apply Run_returns_closed in H.
  split; [exact H|]. split; [|split; [|split; [|split; [|split]]]].
  - intros ty. unfold Lexer.Emit.
    destruct (slice (Lexer.input l') (Lexer.base l') (Lexer.pos l')); [|reflexivity].
    unfold bind, Lexer.send. rewrite H. reflexivity.
  - intros msg. unfold Lexer.Errorf, Lexer.send. rewrite H. reflexivity.
  - intros [|fuel']; simpl; rewrite H; reflexivity.
  - unfold Lexer.Drain. rewrite H. reflexivity.
  - unfold Lexer.NextToken, bind, Lexer.recv.
    destruct (Lexer.tokens l') as [|tok q]; [rewrite H|];
      eexists; eexists; (split; [reflexivity | exact H]).
  - intros E. unfold Lexer.NextToken, bind, Lexer.recv. rewrite E, H.
    split; [reflexivity|].
    unfold Lexer.LineNumber, Lexer.ColumnNumber, slice_to, slice. simpl.
    pose proof (len_nonneg (Lexer.input l')) as Hn. apply Z.leb_le in Hn.
    rewrite Hn. simpl. auto.
Qed.

Lemma Run_closes_the_channel_witness :
  let sf := Lexer.State (fun l =>
              match (Lexer.Next ;;; Lexer.Emit 2) l with
              | Ret _ l1 => Ret None l1
              | Panic => Panic
              | Block => Block
              | Fuel => Fuel
              end) in
  exists l',
    Lexer.Lex 1 (str "t") (str "a") sf = Ret tt l' /\
    Lexer.tokens l' = [Token.mk 2 0 (str "a")] /\
    Lexer.closed l' = true /\
    (forall ty, Lexer.Emit ty l' = Panic).
Proof.
  intros sf. eexists. split; [reflexivity|]. split; [reflexivity|].
  match goal with
  | |- Lexer.closed ?l' = true /\ _ =>
    destruct (Run_closes_the_channel 1 (Some sf) (Lexer.New (str "t") (str "a")) l' eq_refl)
      as (H1 & H2 & _)
  end.
  exact (conj H1 H2).
Defined.

(** ** Lines and columns *)

Lemma HasPrefix_nil s : strings.HasPrefix s [] = true.
Proof. destruct s; reflexivity. Qed.

Lemma HasPrefix_single b s c : strings.HasPrefix (b :: s) [c] = Byte.eqb b c.
Proof. simpl. rewrite HasPrefix_nil. apply andb_true_r. Qed.

Lemma CountByte_snoc s b c :
  strings.CountByte (s ++ [b]) c = strings.CountByte s c + (if Byte.eqb b c then 1 else 0).
Proof.
  induction s as [|x s IH]; simpl.
  - lia.
  - rewrite IH. lia.
Qed.

Lemma CountByte_bounds s c : 0 <= strings.CountByte s c <= len s.
Proof.
  induction s as [|x s IH]; simpl.
  - unfold len. simpl. lia.
  - rewrite len_cons. destruct (Byte.eqb x c); lia.
Qed.

Lemma LastIndex_scan_snoc s b c :
  forall i last,
  strings.LastIndex_scan i (s ++ [b]) [c] last =
  if Byte.eqb b c then i + len s else strings.LastIndex_scan i s [c] last.
Proof.
  induction s as [|x s IH]; intros i last.
  - simpl. rewrite andb_true_r. change (len []) with 0. rewrite Z.add_0_r.
    destruct (Byte.eqb b c); reflexivity.
  - change ((x :: s) ++ [b]) with (x :: (s ++ [b])).
    cbn [strings.LastIndex_scan]. rewrite !HasPrefix_single, IH, len_cons.
    destruct (Byte.eqb b c); [lia | reflexivity].
Qed.

Lemma LastIndex_scan_bounds s c :
  forall i last,
  strings.LastIndex_scan i s [c] last = last \/
  i <= strings.LastIndex_scan i s [c] last < i + len s.
Proof.
  induction s as [|x s IH]; intros i last.
  - left. reflexivity.
  - cbn [strings.LastIndex_scan]. rewrite HasPrefix_single, len_cons.
    pose proof (len_nonneg s).
    destruct (IH (i + 1) (if Byte.eqb x c then i else last)) as [E|E].
    + rewrite E. destruct (Byte.eqb x c); [right; lia | left; reflexivity].
    + right. lia.
Qed.

Lemma firstn_succ_nth {A} (l : list A) :
  forall n x, nth_error l n = Some x -> firstn (S n) l = firstn n l ++ [x].
Proof.
  induction l as [|a l IH]; intros [|n] x H; simpl in H; try discriminate.
  - injection H as <-. reflexivity.
  - simpl. f_equal. apply IH. exact H.
Qed.

Lemma slice_to_firstn s p :
  0 <= p <= len s -> slice_to s p = Some (firstn (Z.to_nat p) s).
Proof.
  intros H. unfold slice_to, slice.
  replace ((0 <=? 0) && (0 <=? p) && (p <=? len s)) with true.
  - rewrite Z.sub_0_r. reflexivity.
  - symmetry. rewrite !andb_true_iff, !Z.leb_le. lia.
Qed.

(** The line and column of an offset within the input. *)
Lemma line_column_at l p :
  len (Lexer.input l) < Int.max -> 0 <= p <= len (Lexer.input l) ->
  let code := firstn (Z.to_nat p) (Lexer.input l) in
  let i := strings.LastIndex code [x0a] in
  len code = p /\ -1 <= i < p /\
  Lexer.LineNumber (Lexer.set_lastPos p l) = Some (1 + strings.CountByte code x0a) /\
  Lexer.ColumnNumber (Lexer.set_lastPos p l) = Some (if 0 <=? i then p - i else 1 + p).
Proof.
  intros Hmax Hp code i.
  assert (Hc : len code = p).
  { unfold code, len. rewrite length_firstn. unfold len in Hp. lia. }
  assert (Hi : -1 <= i < p).
  { unfold i, strings.LastIndex.
    destruct (LastIndex_scan_bounds code x0a 0 (-1)) as [E|E]; [rewrite E|]; lia. }
  pose proof (CountByte_bounds code x0a) as Hn.
  split; [exact Hc|]. split; [exact Hi|].
  unfold Lexer.LineNumber, Lexer.ColumnNumber. simpl.
  rewrite slice_to_firstn by exact Hp. fold code. simpl strings.Count. fold i.
  unfold Int.max in Hmax. split.
  - unfold Int.add. rewrite wrap_small; [reflexivity|]. apply ok_between.
    unfold Int.max. lia.
  - destruct (0 <=? i) eqn:E.
    + apply Z.leb_le in E. unfold Int.sub. rewrite wrap_small; [reflexivity|].
      apply ok_between. unfold Int.max. lia.
    + rewrite Hc. unfold Int.add. rewrite wrap_small; [reflexivity|].
      apply ok_between. unfold Int.max. lia.
Qed.

(** [LineNumber] and [ColumnNumber] return for every recorded position within
    the input, both at least 1 and at most one more than the position, and
    they panic for a position outside the input. *)
Theorem LineNumber_ColumnNumber_in_range (l : Lexer.t) :
  len (Lexer.input l) < Int.max ->
  (0 <= Lexer.lastPos l <= len (Lexer.input l) ->
   exists line col,
     Lexer.LineNumber l = Some line /\ Lexer.ColumnNumber l = Some col /\
     1 <= line <= Lexer.lastPos l + 1 /\ 1 <= col <= Lexer.lastPos l + 1) /\
  (Lexer.lastPos l < 0 \/ len (Lexer.input l) < Lexer.lastPos l ->
   Lexer.LineNumber l = None /\ Lexer.ColumnNumber l = None).
Proof.
  intros Hmax. split.
  - intros Hp.
    destruct (line_column_at l (Lexer.lastPos l) Hmax Hp) as (Hc & Hi & HL & HC).
    assert (E : Lexer.set_lastPos (Lexer.lastPos l) l = l) by (destruct l; reflexivity).
    rewrite E in HL, HC. rewrite HL, HC. eexists. eexists.
    split; [reflexivity|]. split; [reflexivity|].
    pose proof (CountByte_bounds (firstn (Z.to_nat (Lexer.lastPos l)) (Lexer.input l)) x0a).
    rewrite Hc in *.
    destruct (0 <=? strings.LastIndex (firstn (Z.to_nat (Lexer.lastPos l)) (Lexer.input l)) [x0a])
      eqn:E0; [apply Z.leb_le in E0|]; lia.
  - intros Hout. unfold Lexer.LineNumber, Lexer.ColumnNumber, slice_to, slice.
    replace ((0 <=? 0) && (0 <=? Lexer.lastPos l)
             && (Lexer.lastPos l <=? len (Lexer.input l))) with false; [auto|].
    symmetry. simpl. apply andb_false_iff.
    destruct Hout; [left; apply Z.leb_gt | right; apply Z.leb_gt]; lia.
Qed.

Lemma LineNumber_ColumnNumber_in_range_witness :
  let l := Lexer.set_lastPos 4 (Lexer.New (str "t") ab_nl_cd) in
  len (Lexer.input l) < Int.max /\
  (0 <= Lexer.lastPos l <= len (Lexer.input l) ->
   exists line col,
     Lexer.LineNumber l = Some line /\ Lexer.ColumnNumber l = Some col /\
     1 <= line <= Lexer.lastPos l + 1 /\ 1 <= col <= Lexer.lastPos l + 1) /\
  (Lexer.lastPos l < 0 \/ len (Lexer.input l) < Lexer.lastPos l ->
   Lexer.LineNumber l = None /\ Lexer.ColumnNumber l = None).
Proof.
  intros l.
  assert (H : len (Lexer.input l) < Int.max) by reflexivity.
  split; [exact H|]. exact (LineNumber_ColumnNumber_in_range l H).
Defined.

(** Moving the recorded position over one byte of the input: over a newline
    the line goes up by one and the column is 1; over any other byte the line
    stays and the column goes up by one.  At offset 0 they are 1 and 1. *)
Theorem LineNumber_ColumnNumber_step (l : Lexer.t) (p : Z) (b : byte) :
  len (Lexer.input l) < Int.max ->
  byte_at (Lexer.input l) p = Some b ->
  exists line col,
    Lexer.LineNumber (Lexer.set_lastPos p l) = Some line /\
    Lexer.ColumnNumber (Lexer.set_lastPos p l) = Some col /\
    Lexer.LineNumber (Lexer.set_lastPos (p + 1) l)
      = Some (if Byte.eqb b x0a then line + 1 else line) /\
    Lexer.ColumnNumber (Lexer.set_lastPos (p + 1) l)
      = Some (if Byte.eqb b x0a then 1 else col + 1) /\
    Lexer.LineNumber (Lexer.set_lastPos 0 l) = Some 1 /\
    Lexer.ColumnNumber (Lexer.set_lastPos 0 l) = Some 1.
Proof.
  intros Hmax Hb.
  pose proof (byte_at_Some _ _ _ Hb) as (Hp & _).
  destruct (line_column_at l p Hmax) as (Hc & Hi & HL & HC); [lia|].
  destruct (line_column_at l (p + 1) Hmax) as (Hc' & Hi' & HL' & HC'); [lia|].
  destruct (line_column_at l 0 Hmax) as (_ & _ & HL0 & HC0);
    [pose proof (len_nonneg (Lexer.input l)); lia|].
  assert (Hn : nth_error (Lexer.input l) (Z.to_nat p) = Some b).
  { unfold byte_at in Hb. destruct (p <? 0) eqn:E; [discriminate | exact Hb]. }
  replace (Z.to_nat (p + 1)) with (S (Z.to_nat p)) in * by lia.
  rewrite (firstn_succ_nth _ _ _ Hn) in *.
  set (code := firstn (Z.to_nat p) (Lexer.input l)) in *.
  rewrite CountByte_snoc in HL'.
  unfold strings.LastIndex in HC', Hi'. rewrite LastIndex_scan_snoc in HC', Hi'.
  fold (strings.LastIndex code [x0a]) in HC', Hi'.
  rewrite HL, HC, HL', HC', HL0, HC0. eexists. eexists.
  split; [reflexivity|]. split; [reflexivity|].
  destruct (Byte.eqb b x0a).
  - rewrite Hc, Z.add_0_l in *.
    replace (0 <=? p) with true by (symmetry; apply Z.leb_le; lia).
    repeat split; f_equal; lia.
  - destruct (0 <=? strings.LastIndex code [x0a]);
      repeat split; f_equal; lia.
Qed.

Lemma LineNumber_ColumnNumber_step_witness :
  let l := Lexer.New (str "t") ab_nl_cd in
  (len (Lexer.input l) < Int.max /\ byte_at (Lexer.input l) 2 = Some x0a) /\
  exists line col,
    Lexer.LineNumber (Lexer.set_lastPos 2 l) = Some line /\
    Lexer.ColumnNumber (Lexer.set_lastPos 2 l) = Some col /\
    Lexer.LineNumber (Lexer.set_lastPos (2 + 1) l)
      = Some (if Byte.eqb x0a x0a then line + 1 else line) /\
    Lexer.ColumnNumber (Lexer.set_lastPos (2 + 1) l)
      = Some (if Byte.eqb x0a x0a then 1 else col + 1) /\
    Lexer.LineNumber (Lexer.set_lastPos 0 l) = Some 1 /\
    Lexer.ColumnNumber (Lexer.set_lastPos 0 l) = Some 1.
Proof.
  intros l.
  assert (H1 : len (Lexer.input l) < Int.max) by reflexivity.
  assert (H2 : byte_at (Lexer.input l) 2 = Some x0a) by reflexivity.
  split; [exact (conj H1 H2)|].
  exact (LineNumber_ColumnNumber_step l 2 x0a H1 H2).
Defined.

(** ** The character classes *)

Lemma b2z_range b : 0 <= b2z b < 256.
Proof. unfold b2z. pose proof (Byte.to_N_bounded b). lia. Qed.

Lemma b2z_z2b v : b2z (z2b v) = v mod 256.
Proof.
  unfold b2z, z2b. pose proof (Z.mod_pos_bound v 256 ltac:(lia)) as Hm.
  destruct (Byte.of_N (Z.to_N (v mod 256))) as [b|] eqn:E.
  - apply Byte.to_of_N in E. rewrite E. lia.
  - apply Byte.of_N_None_iff in E. lia.
Qed.

Lemma z2b_b2z b : z2b (b2z b) = b.
Proof.
  unfold z2b. pose proof (b2z_range b) as H.
  rewrite Z.mod_small by exact H. unfold b2z. rewrite N2Z.id, Byte.of_to_N.
  reflexivity.
Qed.

Lemma eqb_z2b b r : 0 <= r < 256 -> Byte.eqb b (z2b r) = (b2z b =? r).
Proof.
  intros Hr. destruct (b2z b =? r) eqn:E.
  - apply Z.eqb_eq in E. subst r. rewrite z2b_b2z. apply byte_dec_lb. reflexivity.
  - apply Z.eqb_neq in E. destruct (Byte.eqb b (z2b r)) eqn:E'; [|reflexivity].
    apply byte_dec_bl in E'. subst b. rewrite b2z_z2b, Z.mod_small in E by exact Hr.
    congruence.
Qed.

Lemma IndexByte_from_found s c :
  forall i, 0 <= i ->
  (0 <=? strings.IndexByte_from i s c) = existsb (fun b => Byte.eqb b c) s.
Proof.
  induction s as [|b s IH]; intros i Hi; simpl; [reflexivity|].
  destruct (Byte.eqb b c); simpl.
  - apply Z.leb_le. exact Hi.
  - apply IH. lia.
Qed.

Lemma IndexRuneError_loop_ascii s :
  Forall (fun b => b2z b < 0x80) s ->
  forall fuel i, strings.IndexRuneError_loop fuel i s = -1.
Proof.
  induction 1 as [|b s Hb Hs IH]; intros [|fuel] i; try reflexivity.
  cbn [strings.IndexRuneError_loop]. rewrite (DecodeRune_ascii b s Hb).
  replace (b2z b =? utf8.RuneError) with false.
  - simpl skipn. apply IH.
  - symmetry. apply Z.eqb_neq. unfold utf8.RuneError. lia.
Qed.

Lemma Index_from_ascii s e0 rest :
  Forall (fun b => b2z b < 0x80) s -> 0x80 <= b2z e0 ->
  forall i, strings.Index_from i s (e0 :: rest) = -1.
Proof.
  intros Hs He. induction Hs as [|b s Hb Hs IH]; intros i; [reflexivity|].
  cbn [strings.Index_from strings.HasPrefix].
  replace (Byte.eqb b e0) with false; [apply IH|].
  symmetry. destruct (Byte.eqb b e0) eqn:E; [|reflexivity].
  apply byte_dec_bl in E. subst. lia.
Qed.

Lemma high_bit_byte K y : Z.testbit K 7 = true -> 0x80 <= b2z (z2b (Z.lor K y)).
Proof.
  intros HK. rewrite b2z_z2b.
  pose proof (Z.mod_pos_bound (Z.lor K y) 256 ltac:(lia)) as Hm.
  assert (Hb : Z.testbit (Z.lor K y mod 256) 7 = true).
  { change 256 with (2 ^ 8). rewrite Z.mod_pow2_bits_low by lia.
    rewrite Z.lor_spec, HK. reflexivity. }
  destruct (Z_lt_le_dec (Z.lor K y mod 256) 0x80) as [Hlt|Hge]; [|exact Hge].
  exfalso. destruct (Z.eq_dec (Z.lor K y mod 256) 0) as [E0|Hne].
  - rewrite E0, Z.bits_0 in Hb. discriminate.
  - rewrite Z.bits_above_log2 in Hb; [discriminate | lia |].
    apply Z.log2_lt_pow2; [lia|]. change (2 ^ 7) with 128. lia.
Qed.

Lemma EncodeRune_first_byte r :
  ~ (0 <= r < 0x80) ->
  exists e0 rest, utf8.EncodeRune r = e0 :: rest /\ 0x80 <= b2z e0.
Proof.
  intros Hr. unfold utf8.EncodeRune, utf8.encode3.
  replace ((0 <=? r) && (r <? 0x80)) with false.
  2:{ symmetry. apply andb_false_iff.
      destruct (Z_lt_le_dec r 0); [left; apply Z.leb_gt | right; apply Z.ltb_ge]; lia. }
  destruct ((0 <=? r) && (r <=? 0x7FF)); [|destruct (negb (utf8.ValidRune r));
    [|destruct (r <=? 0xFFFF)]];
    eexists; eexists; (split; [reflexivity | apply high_bit_byte; reflexivity]).
Qed.

(** For a set of ASCII bytes, [IndexRune] finds a rune exactly when the rune
    is one of the bytes. *)
Lemma IndexRune_ascii_set s r :
  Forall (fun b => b2z b < 0x80) s ->
  (0 <=? strings.IndexRune s r) = existsb (fun b => b2z b =? r) s.
Proof.
  intros Hs. unfold strings.IndexRune, utf8.RuneSelf.
  assert (Hout : ~ (0 <= r < 0x80) -> existsb (fun b => b2z b =? r) s = false).
  { intros Hr. clear - Hs Hr. induction Hs as [|b s Hb _ IH]; [reflexivity|].
    simpl. rewrite IH, orb_false_r. apply Z.eqb_neq.
    pose proof (b2z_range b). lia. }
  destruct ((0 <=? r) && (r <? 0x80)) eqn:E.
  - apply andb_prop in E. destruct E as [E1 E2].
    apply Z.leb_le in E1. apply Z.ltb_lt in E2.
    unfold strings.IndexByte. rewrite IndexByte_from_found by lia.
    clear Hout. induction Hs as [|b s Hb _ IH]; [reflexivity|].
    simpl. rewrite IH, eqb_z2b by lia. reflexivity.
  - assert (Hr : ~ (0 <= r < 0x80)).
    { apply andb_false_iff in E. destruct E as [E|E];
        [apply Z.leb_gt in E | apply Z.ltb_ge in E]; lia. }
    rewrite (Hout Hr).
    destruct (r =? utf8.RuneError); [rewrite IndexRuneError_loop_ascii by exact Hs; reflexivity|].
    destruct (negb (utf8.ValidRune r)); [reflexivity|].
    destruct (EncodeRune_first_byte r Hr) as (e0 & rest & -> & He).
    unfold strings.Index. rewrite Index_from_ascii by assumption. reflexivity.
Qed.

Lemma AcceptFuncRun_loop_ext f g :
  (forall r, f r = g r) ->
  forall fuel n l,
  Lexer.AcceptFuncRun_loop fuel f n l = Lexer.AcceptFuncRun_loop fuel g n l.
Proof.
  intros H. induction fuel as [|fuel IH]; intros n l; [reflexivity|].
  rewrite !AcceptFuncRun_loop_step.
  destruct (Lexer.Next l) as [r l1| | |]; try reflexivity.
  rewrite H, IH. reflexivity.
Qed.

(** The predicates [IsSpace], [IsEndline] and [IsQuote] say of every rune
    what membership in the strings [Space], [Endline] and [Quote] says, so
    accepting by predicate and accepting by set are the same calls. *)
Theorem character_classes_agree_with_their_sets :
  (forall r, IsSpace r = (0 <=? strings.IndexRune Space r)) /\
  (forall r, IsEndline r = (0 <=? strings.IndexRune Endline r)) /\
  (forall r, IsQuote r = (0 <=? strings.IndexRune Quote r)) /\
  (forall l, Lexer.AcceptFunc IsSpace l = Lexer.Accept Space l) /\
  (forall l, Lexer.AcceptFunc IsEndline l = Lexer.Accept Endline l) /\
  (forall l, Lexer.AcceptFunc IsQuote l = Lexer.Accept Quote l) /\
  (forall fuel l, Lexer.AcceptFuncRun fuel IsSpace l = Lexer.AcceptRun fuel Space l) /\
  (forall fuel l, Lexer.AcceptFuncRun fuel IsEndline l = Lexer.AcceptRun fuel Endline l) /\
  (forall fuel l, Lexer.AcceptFuncRun fuel IsQuote l = Lexer.AcceptRun fuel Quote l).
Proof.
  assert (HS : forall r, IsSpace r = (0 <=? strings.IndexRune Space r)).
  { intros r. rewrite IndexRune_ascii_set
      by (repeat constructor). unfold IsSpace, Space. cbn [existsb].
    change (b2z x20) with 32. change (b2z x09) with 9.
    rewrite orb_false_r, (Z.eqb_sym 32), (Z.eqb_sym 9). reflexivity. }
  assert (HE : forall r, IsEndline r = (0 <=? strings.IndexRune Endline r)).
  { intros r. rewrite IndexRune_ascii_set
      by (repeat constructor). unfold IsEndline, Endline. cbn [existsb].
    change (b2z x0d) with 13. change (b2z x0a) with 10.
    rewrite orb_false_r, (Z.eqb_sym 13), (Z.eqb_sym 10). reflexivity. }
  assert (HQ : forall r, IsQuote r = (0 <=? strings.IndexRune Quote r)).
  { intros r. rewrite IndexRune_ascii_set
      by (repeat constructor). unfold IsQuote, Quote. cbn [existsb].
    change (b2z x22) with 34. change (b2z x27) with 39. change (b2z x60) with 96.
    rewrite orb_false_r, (Z.eqb_sym 34), (Z.eqb_sym 39), (Z.eqb_sym 96), orb_assoc.
    reflexivity. }
  assert (HA : forall f valid, (forall r, f r = (0 <=? strings.IndexRune valid r)) ->
                 forall l, Lexer.AcceptFunc f l = Lexer.Accept valid l).
  { intros f valid H l. unfold Lexer.AcceptFunc, Lexer.Accept, bind.
    destruct (Lexer.Next l) as [r l1| | |]; try reflexivity. rewrite H. reflexivity. }
  assert (HR : forall f valid, (forall r, f r = (0 <=? strings.IndexRune valid r)) ->
                 forall fuel l, Lexer.AcceptFuncRun fuel f l = Lexer.AcceptRun fuel valid l).
  { intros f valid H fuel l. unfold Lexer.AcceptFuncRun, Lexer.AcceptRun.
    rewrite AcceptRun_loop_as_AcceptFuncRun_loop.
    apply AcceptFuncRun_loop_ext. exact H. }
  repeat split; auto.
Qed.

(** ** Looking ahead without consuming *)

(** [HasPrefixAfter after s] looks at the input [after] bytes past the
    cursor: with that offset within the input it reports whether the input
    holds [s] there, which is what [HasPrefix s] reports with the cursor
    moved there and what [Input after] starts with; with that offset outside
    the input all three panic.  [HasPrefix s] is [HasPrefixAfter 0 s]. *)
Theorem HasPrefixAfter_looks_ahead (l : Lexer.t) (after : Z) (s : gostring) :
  Int.ok (Lexer.pos l) -> Int.ok (Lexer.pos l + after) ->
  (0 <= Lexer.pos l + after <= len (Lexer.input l) ->
   exists rest,
     Lexer.Input after l = Some rest /\
     len rest = len (Lexer.input l) - (Lexer.pos l + after) /\
     Lexer.HasPrefixAfter after s l = Some (strings.HasPrefix rest s) /\
     Lexer.HasPrefix s (Lexer.set_pos (Lexer.pos l + after) l)
       = Some (strings.HasPrefix rest s) /\
     (strings.HasPrefix rest s = true <->
      slice (Lexer.input l) (Lexer.pos l + after) (Lexer.pos l + after + len s) = Some s)) /\
  (Lexer.pos l + after < 0 \/ len (Lexer.input l) < Lexer.pos l + after ->
   Lexer.Input after l = None /\ Lexer.HasPrefixAfter after s l = None) /\
  Lexer.HasPrefixAfter 0 s l = Lexer.HasPrefix s l.
Proof.
  intros Hp Hpa.
  assert (E : Int.add (Lexer.pos l) after = Lexer.pos l + after)
    by (apply wrap_small; exact Hpa).
  assert (E0 : Int.add (Lexer.pos l) 0 = Lexer.pos l)
    by (unfold Int.add; rewrite Z.add_0_r; apply wrap_small; exact Hp).
  unfold Lexer.Input, Lexer.HasPrefixAfter, Lexer.HasPrefix. rewrite E, E0. simpl.
  split; [|split; [|reflexivity]].
  - intros Hin. rewrite slice_from_skipn by exact Hin.
    eexists. split; [reflexivity|]. split; [|split; [reflexivity|split; [reflexivity|]]].
    + unfold len. rewrite length_skipn. unfold len in Hin. lia.
    + rewrite HasPrefix_firstn. symmetry. apply slice_is. exact Hin.
  - intros Hout. unfold slice_from, slice.
    replace ((0 <=? Lexer.pos l + after)
             && (Lexer.pos l + after <=? len (Lexer.input l))
             && (len (Lexer.input l) <=? len (Lexer.input l))) with false; [auto|].
    symmetry. rewrite !andb_false_iff.
    destruct Hout; [left; left; apply Z.leb_gt | left; right; apply Z.leb_gt]; lia.
Qed.

Lemma HasPrefixAfter_looks_ahead_witness :
  let l := Lexer.set_pos 1 (Lexer.New (str "t") (str "abcd")) in
  (Int.ok (Lexer.pos l) /\ Int.ok (Lexer.pos l + 1)) /\
  Lexer.HasPrefixAfter 1 (str "cd") l = Some true /\
  Lexer.HasPrefixAfter 0 (str "cd") l = Lexer.HasPrefix (str "cd") l.
Proof.
  intros l.
  assert (H1 : Int.ok (Lexer.pos l)) by (vm_compute; intuition discriminate).
  assert (H2 : Int.ok (Lexer.pos l + 1)) by (vm_compute; intuition discriminate).
  split; [exact (conj H1 H2)|].
  destruct (HasPrefixAfter_looks_ahead l 1 (str "cd") H1 H2) as (Hin & _ & H0).
  split; [|exact H0].
  destruct Hin as (rest & HI & _ & HA & _); [vm_compute; split; discriminate|].
  vm_compute in HI. injection HI as <-. exact HA.
Defined.

(** ** From the scanner to the reader *)

Lemma exec_input fuel o l l' :
  exec fuel o l = Ret tt l' -> Lexer.input l' = Lexer.input l.
Proof.
  intros H. pose proof (exec_frames fuel o) as Hfr.
  destruct o; simpl in H;
    try (destruct (Hfr _ _ _ H) as (_ & _ & E & _); exact E).
  - unfold Lexer.Emit in H.
    destruct (slice (Lexer.input l) (Lexer.base l) (Lexer.pos l)); [|discriminate].
    unfold bind, Lexer.send in H. destruct (Lexer.closed l); [discriminate|].
    injection H as <-. reflexivity.
  - injection H as <-. reflexivity.
  - unfold Lexer.Errorf, Lexer.send in H. destruct (Lexer.closed l); [discriminate|].
    injection H as <-. reflexivity.
Qed.

Lemma exec_tokens_are_slices fuel o l l' :
  exec fuel o l = Ret tt l' ->
  (forall msg, o <> OErrorf msg) ->
  Forall (holds_its_text (Lexer.input l)) (Lexer.tokens l) ->
  Forall (holds_its_text (Lexer.input l)) (Lexer.tokens l').
Proof.
  intros H Hne Hall. pose proof (exec_frames fuel o) as Hfr.
  destruct o; simpl in H;
    try (destruct (Hfr _ _ _ H) as (_ & -> & _); exact Hall).
  - unfold Lexer.Emit in H.
    destruct (slice (Lexer.input l) (Lexer.base l) (Lexer.pos l)) as [v|] eqn:S;
      [|discriminate].
    unfold bind, Lexer.send in H. destruct (Lexer.closed l); [discriminate|].
    injection H as <-. simpl. apply Forall_app. split; [exact Hall|].
    constructor; [|constructor]. unfold holds_its_text. simpl.
    pose proof (slice_Some _ _ _ _ S) as (_ & _ & Hl & _).
    rewrite Hl. replace (Lexer.base l + (Lexer.pos l - Lexer.base l)) with (Lexer.pos l) by lia.
    exact S.
  - injection H as <-. exact Hall.
  - exfalso. apply (Hne msg). reflexivity.
Qed.

(** Whatever the scanner calls are, short of [Errorf], every token on the
    channel holds the text that the input has at the token's position: its
    value is [input[Pos : Pos + len(Value)]]. *)
Theorem emitted_tokens_hold_their_text
  (fuel : nat) (name input : gostring) (ops : list op)
  (log : list event) (l : Lexer.t) :
  run fuel ops [] (Lexer.New name input) = Ret log l ->
  (forall msg, ~ In (OErrorf msg) ops) ->
  Forall (holds_its_text input) (Lexer.tokens l).
Proof.
  intros H Hne.
  assert (G : forall ops log0 l0 log1 l1,
             run fuel ops log0 l0 = Ret log1 l1 ->
             (forall msg, ~ In (OErrorf msg) ops) ->
             Forall (holds_its_text (Lexer.input l0)) (Lexer.tokens l0) ->
             Forall (holds_its_text (Lexer.input l0)) (Lexer.tokens l1)).
  { clear. induction ops as [|o ops IH]; intros log0 l0 log1 l1 H Hne Hall; simpl in H.
    - injection H as _ <-. exact Hall.
    - unfold bind in H. destruct (exec fuel o l0) as [[] l2| | |] eqn:E; try discriminate.
      pose proof (exec_input _ _ _ _ E) as Ei.
      rewrite <- Ei. apply (IH _ _ _ _ H).
      + intros msg Hin. apply (Hne msg). right. exact Hin.
      + rewrite Ei. apply (exec_tokens_are_slices _ _ _ _ E); [|exact Hall].
        intros msg ->. apply (Hne msg). left. reflexivity. }
  apply (G ops [] (Lexer.New name input) log l H Hne). constructor.
Qed.

Lemma emitted_tokens_hold_their_text_witness :
  let ops := [OConsume (str "ab"); OEmit 2; OInc 1; OIgnore; OAcceptRun (str "cd"); OEmit 3] in
  exists log l,
    run 4 ops [] (Lexer.New (str "t") (str "ab cd")) = Ret log l /\
    (forall msg, ~ In (OErrorf msg) ops) /\
    Lexer.tokens l = [Token.mk 2 0 (str "ab"); Token.mk 3 3 (str "cd")] /\
    Forall (holds_its_text (str "ab cd")) (Lexer.tokens l).
Proof.
  intros ops.
  destruct (run 4 ops [] (Lexer.New (str "t") (str "ab cd"))) as [log l| | |] eqn:E;
    try (vm_compute in E; discriminate).
  exists log, l. split; [reflexivity|].
  assert (N : forall msg, ~ In (OErrorf msg) ops).
  { intros msg [H|[H|[H|[H|[H|[H|[]]]]]]]; discriminate. }
  split; [exact N|]. split.
  - vm_compute in E. injection E as _ <-. reflexivity.
  - exact (emitted_tokens_hold_their_text 4 (str "t") (str "ab cd") ops log l E N).
Defined.

Lemma last_nonempty {A} (x : A) (l : list A) (d d' : A) :
  last (x :: l) d = last (x :: l) d'.
Proof.
  revert x. induction l as [|y l IH]; intros x; [reflexivity|].
  change (last (y :: l) d = last (y :: l) d'). apply IH.
Qed.

Lemma Expect_loop_reads_queue (q : list Token.t) :
  forall l,
  Lexer.tokens l = q ->
  exists r',
    Reader.Expect_loop (map Token.Type_ q) [] (Reader.mk l None) = Ret (q, true) r' /\
    Reader.buf r' = None /\ Lexer.tokens (Reader.lex r') = [] /\
    Lexer.lastPos (Reader.lex r') = last (map Token.Pos q) (Lexer.lastPos l).
Proof.
  induction q as [|tok q IH]; intros l Q.
  - exists (Reader.mk l None). simpl. unfold ret. auto.
  - destruct (IH (Lexer.set_lastPos (Token.Pos tok) (Lexer.set_tokens q l)) eq_refl)
      as (r' & HE & Hb & Ht & Hl).
    exists r'. split; [|split; [exact Hb|split; [exact Ht|]]].
    + cbn [map Reader.Expect_loop]. unfold bind.
      assert (HN : Reader.Next (Reader.mk l None)
                   = Ret tok (Reader.mk (Lexer.set_lastPos (Token.Pos tok)
                                           (Lexer.set_tokens q l)) None)).
      { unfold Reader.Next, Reader.on_lex, Lexer.NextToken, bind, Lexer.recv.
        cbn [Reader.buf Reader.lex]. rewrite Q. reflexivity. }
      rewrite HN, Z.eqb_refl. cbn [negb app].
      rewrite Expect_loop_acc, HE. reflexivity.
    + rewrite Hl. cbn [Lexer.lastPos Lexer.set_lastPos map].
      destruct q as [|t q]; [reflexivity|].
      cbn [map]. rewrite (last_nonempty _ _ (Token.Pos tok) (Lexer.lastPos l)).
      reflexivity.
Qed.

(** What the scanner has queued, the reader reads back: [Expect] with the
    types of the queued tokens returns exactly those tokens, in the order in
    which they were sent, with the flag true, and leaves the queue empty. *)
Theorem Expect_reads_back_the_queue (l : Lexer.t) :
  exists r',
    Reader.Expect (map Token.Type_ (Lexer.tokens l)) (Reader.NewReader l)
      = Ret (Lexer.tokens l, true) r' /\
    Reader.buf r' = None /\ Lexer.tokens (Reader.lex r') = [] /\
    Lexer.lastPos (Reader.lex r') = last (map Token.Pos (Lexer.tokens l)) (Lexer.lastPos l).
Proof.
  exact (Expect_loop_reads_queue (Lexer.tokens l) l eq_refl).
Qed.
